(** * Viterbi part-of-speech tagger ([runtagger.py]): model and properties

    The tagger reads a trained hidden Markov model, decodes every line of a
    test file with the Viterbi algorithm and writes one tagged line per input
    line.  This file embeds [viterbi], [backtrack_viterbi_matrix] and the
    decoding loop of [tag_sentence], and proves the properties the
    specification states about them.

    Modelling choices.
    - Python [float] is the kernel's binary64 type [float]; [+], [==] and the
      [>] used by [max] are the primitive operations, so NaN, signed zeros and
      infinities behave as in CPython.
    - [math.log] is the C library's logarithm; it is a parameter [libm_log] of
      the development, wrapped by [math_log] which raises as CPython does.
    - A Python [int] is a [Z]; the true division [1/n] of integers is the
      exact quotient rounded once to binary64, as CPython computes it.
    - Python exceptions are the [Raise] results of an error monad.
    - The model tables that [json.loads] returns are finite maps ([gmap]); a
      trellis row, whose iteration order the code depends on, is an
      insertion-ordered association list ([pydict]).
    - A [str] is a [string]; its characters are the code points below 256. *)

From Stdlib Require Import ZArith Lia Ascii String Floats.
From stdpp Require Import base option list gmap strings.

Set Warnings "-inexact-float".

(** ** Exceptions *)

Inductive exn : Set :=
  | KeyError | IndexError | ZeroDivisionError | ValueError | TypeError.

Inductive result (A : Type) : Type :=
  | Ok (a : A)
  | Raise (e : exn).
Arguments Ok {A} a.
Arguments Raise {A} e.

#[global] Instance result_ret : MRet result := fun _ a => Ok a.
#[global] Instance result_bind : MBind result := fun _ _ f c =>
  match c with Ok a => f a | Raise e => Raise e end.

Definition raises {A} (c : result A) : Prop := exists e, c = Raise e.

(** [for x in l: acc = body(acc, x)], stopping at the first exception. *)
Fixpoint foldM {A B} (body : B -> A -> result B) (l : list A) (acc : B) : result B :=
  match l with
  | [] => Ok acc
  | x :: l' => acc' ← body acc x; foldM body l' acc'
  end.

(** ** Python containers *)

(** [l[i]] for [0 <= i]. *)
Definition list_getitem {A} (l : list A) (i : nat) : result A :=
  match l !! i with Some x => Ok x | None => Raise IndexError end.

(** [l[-1]]. *)
Definition list_getlast {A} (l : list A) : result A :=
  match last l with Some x => Ok x | None => Raise IndexError end.

(** A [dict] with [str] keys, in insertion order. *)
Definition pydict (V : Type) : Type := list (string * V).

Fixpoint dict_lookup {V} (k : string) (d : pydict V) : option V :=
  match d with
  | [] => None
  | (k', v) :: d' => if String.eqb k k' then Some v else dict_lookup k d'
  end.

(** [d[k]] *)
Definition dict_getitem {V} (d : pydict V) (k : string) : result V :=
  match dict_lookup k d with Some v => Ok v | None => Raise KeyError end.

(** [d[k] = v]: an existing key keeps its position, a new one goes last. *)
Fixpoint dict_setitem {V} (k : string) (v : V) (d : pydict V) : pydict V :=
  match d with
  | [] => [(k, v)]
  | (k', v') :: d' =>
      if String.eqb k k' then (k', v) :: d' else (k', v') :: dict_setitem k v d'
  end.

Definition dict_keys {V} (d : pydict V) : list string := d.*1.
Definition dict_values {V} (d : pydict V) : list V := d.*2.

(** A table parsed by [json.loads]: [tbl[k]] and [tbl.get(k, dflt)]. *)
Definition tbl_getitem {V} (tbl : gmap string V) (k : string) : result V :=
  match tbl !! k with Some v => Ok v | None => Raise KeyError end.

Definition tbl_get (tbl : gmap string float) (k : string) (dflt : float) : float :=
  default dflt (tbl !! k).

(** ** Numbers *)

(** The quotient [1 / n] of two [int]s for [n <> 0]: true division of
    integers is the exact quotient rounded once to binary64, to nearest with
    ties to even, whatever the size of [n]; a quotient of at most half the
    smallest subnormal rounds to a zero of the sign of [n]. *)
Definition inverse_of_int (n : Z) : float :=
  SF2Prim (SFdiv prec emax (S754_finite false 1 0)
                 (S754_finite (n <? 0)%Z (Z.to_pos (Z.abs n)) 0)).

(** [1 / n] for an [int] [n]. *)
Definition one_over (n : Z) : result float :=
  if (n =? 0)%Z then Raise ZeroDivisionError else Ok (inverse_of_int n).

(** [max(l)]: keeps the first item and replaces it when [item > current]. *)
Fixpoint max_from (cur : float) (l : list float) : float :=
  match l with
  | [] => cur
  | x :: l' => max_from (if (cur <? x)%float then x else cur) l'
  end.

Definition py_max (l : list float) : result float :=
  match l with
  | [] => Raise ValueError
  | x :: l' => Ok (max_from x l')
  end.

(** ** Strings *)

(** [str.isspace] on one character (code points below 256). *)
Definition is_whitespace (c : ascii) : bool :=
  let n := nat_of_ascii c in
  ((9 <=? n) && (n <=? 13) || (28 <=? n) && (n <=? 32)
   || (n =? 133) || (n =? 160))%nat.

Fixpoint lstrip (s : string) : string :=
  match s with
  | EmptyString => EmptyString
  | String c s' => if is_whitespace c then lstrip s' else s
  end.

Fixpoint rstrip (s : string) : string :=
  match s with
  | EmptyString => EmptyString
  | String c s' =>
      match rstrip s' with
      | EmptyString => if is_whitespace c then EmptyString else String c EmptyString
      | r => String c r
      end
  end.

(** [s.strip()] *)
Definition strip (s : string) : string := rstrip (lstrip s).

(** [s.split(sep)] for a one-character separator: never empty, and two
    adjacent separators enclose an empty field. *)
Fixpoint split (sep : ascii) (s : string) : list string :=
  match s with
  | EmptyString => [EmptyString]
  | String c s' =>
      if Ascii.eqb c sep then EmptyString :: split sep s'
      else match split sep s' with
           | [] => [String c EmptyString]
           | w :: ws => String c w :: ws
           end
  end.

(** [s[:-1]] *)
Fixpoint drop_last_char (s : string) : string :=
  match s with
  | EmptyString => EmptyString
  | String c EmptyString => EmptyString
  | String c s' => String c (drop_last_char s')
  end.

(** ** The tagger *)

(** One trellis cell, the dict [{PROBABILITY: ..., BACKPOINTER: ...}]. *)
Record cell : Type := Cell {
  PROBABILITY : float;
  BACKPOINTER : option string
}.

Definition row : Type := pydict cell.

(** The global constant [K]. *)
Definition K : float := 0.01%float.

(** The five lines of a model file. *)
Record model : Type := Model {
  vocabulary_len : Z;
  states : list string;
  initial_state_probability : gmap string float;
  transition_probability : gmap string (gmap string float);
  emission_probability : gmap string (gmap string float)
}.

(** [backtrack_viterbi_matrix(V)].  [pre_tag] and the collected tags are
    [option string] because a backpointer may be [None]; indexing a row
    with [None] finds no key. *)
Definition first_best (max_probability : float) (last_row : row)
  : list (option string) * option string :=
  match List.find (fun kv => (PROBABILITY kv.2 =? max_probability)%float) last_row with
  | Some (state, _) => ([Some state], Some state)
  | None => ([], Some "RDM"%string)
  end.

Definition backtrack_step (V : list row)
    (acc : list (option string) * option string) (t : nat)
  : result (list (option string) * option string) :=
  let '(tags, pre_tag) := acc in
  r ← list_getitem V (t + 1);
  c ← match pre_tag with
      | Some k => dict_getitem r k
      | None => Raise KeyError
      end;
  let x := BACKPOINTER c in
  Ok (tags ++ [x], x).

Definition backtrack_viterbi_matrix (V : list row) : result (list (option string)) :=
  last_row ← list_getlast V;
  max_probability ← py_max (PROBABILITY <$> dict_values last_row);
  acc ← foldM (backtrack_step V) (rev (seq 0 (length V - 1)))
              (first_best max_probability last_row);
  Ok (rev acc.1).

Section Tagger.

(** The C library's [log] on positive arguments. *)
Variable libm_log : float -> float.

(** [math.log(x)]: NaN is passed through, other arguments that are not
    positive raise [ValueError]. *)
Definition math_log (x : float) : result float :=
  if is_nan x then Ok x
  else if (0 <? x)%float then Ok (libm_log x)
  else Raise ValueError.

(** [math.log(1/count * K)] *)
Definition unknown_prob (count : Z) : result float :=
  q ← one_over count;
  math_log (q * K)%float.

Section Viterbi.

Variable observation : list string.
Variable distinct_word_count : Z.
Variable states : list string.
Variable initial_state_probability : gmap string float.
Variable emission_probability : gmap string (gmap string float).
Variable transition_probability : gmap string (gmap string float).
Variable unknown_word_prob unknown_state_prob : float.

(** Lines 23-28: one pass of the loop that fills [V[0]]. *)
Definition init_cell (V0 : row) (state : string) : result row :=
  i ← tbl_getitem initial_state_probability state;
  e ← tbl_getitem emission_probability state;
  o ← list_getitem observation 0;
  Ok (dict_setitem state (Cell (i + tbl_get e o unknown_word_prob)%float None) V0).

(** [V[t-1][prev_state][PROBABILITY] +
     transition_probability[prev_state].get(state, unknown_state_prob)] *)
Definition transition_score (V : list row) (t : nat) (state prev_state : string)
  : result float :=
  r ← list_getitem V (t - 1);
  c ← dict_getitem r prev_state;
  tr ← tbl_getitem transition_probability prev_state;
  Ok (PROBABILITY c + tbl_get tr state unknown_state_prob)%float.

(** Lines 42-47: one pass of the loop that records the backpointer. *)
Definition record_backpointer (V : list row) (t : nat) (state : string)
    (max_transition_prob max_emission_prob : float)
    (Vt : row) (prev_state : string) : result row :=
  transition_prob ← transition_score V t state prev_state;
  if (transition_prob =? max_transition_prob)%float
  then Ok (dict_setitem state (Cell max_emission_prob (Some prev_state)) Vt)
  else Ok Vt.

(** Lines 33-47: one pass of the loop over [state]. *)
Definition fill_cell (V : list row) (t : nat) (Vt : row) (state : string)
  : result row :=
  probs ← mapM (transition_score V t state) states;
  max_transition_prob ← py_max probs;
  e ← tbl_getitem emission_probability state;
  o ← list_getitem observation t;
  let max_emission_prob := (max_transition_prob + tbl_get e o unknown_word_prob)%float in
  foldM (record_backpointer V t state max_transition_prob max_emission_prob)
        states Vt.

(** Lines 30-47: one pass of the loop over [t]; the row [V[t]] is
    appended once it is filled, which no later read can tell from the
    source's append-then-fill. *)
Definition extend_trellis (V : list row) (t : nat) : result (list row) :=
  Vt ← foldM (fill_cell V t) states [];
  Ok (V ++ [Vt]).

(** Lines 21-47. *)
Definition build_trellis : result (list row) :=
  V0 ← foldM init_cell states [];
  foldM extend_trellis (seq 1 (length observation - 1)) [V0].

(** Lines 52-53: one pass of the output loop. *)
Definition append_pair (tags : list (option string)) (output : string) (i : nat)
  : result string :=
  o ← list_getitem observation i;
  tg ← list_getitem tags i;
  match tg with
  | Some tag => Ok (output +:+ o +:+ "/" +:+ tag +:+ " ")
  | None => Raise TypeError
  end.

(** Lines 49-55. *)
Definition format_output (tags : list (option string)) : result string :=
  output ← foldM (append_pair tags) (seq 0 (length observation)) EmptyString;
  Ok (drop_last_char output).

End Viterbi.

(** [viterbi(observation, distinct_word_count, states,
             initial_state_probability, emission_probability,
             transition_probability)] *)
Definition viterbi (observation : list string) (distinct_word_count : Z)
    (states : list string) (initial_state_probability : gmap string float)
    (emission_probability transition_probability : gmap string (gmap string float))
  : result string :=
  let distinct_tag_count := Z.of_nat (length states) in
  unknown_word_prob ← unknown_prob distinct_word_count;
  unknown_state_prob ← unknown_prob distinct_tag_count;
  V ← build_trellis observation states initial_state_probability
        emission_probability transition_probability
        unknown_word_prob unknown_state_prob;
  tags ← backtrack_viterbi_matrix V;
  format_output observation tags.

(** Line 94: [line.strip().split(" ")]. *)
Definition observation_of_line (line : string) : list string :=
  split " "%char (strip line).

(** The decoding loop of [tag_sentence] (lines 92-98) on the lines of the
    test file and the parsed model; the result is the list [result]
    that lines 101-104 write, one element per output line. *)
Definition tag_sentence (test_lines : list string) (m : model)
  : result (list string) :=
  mapM (fun line =>
          viterbi (observation_of_line line) (vocabulary_len m) (states m)
                  (initial_state_probability m) (emission_probability m)
                  (transition_probability m))
       test_lines.

(** Lines 101-104: the text written to [out_file]. *)
Definition out_file_text (result : list string) : string :=
  foldr (fun line text => line +:+ String "010" text) EmptyString result.

End Tagger.

(** ** Specification vocabulary *)

(** A float that is not NaN. *)
Definition number (x : float) : Prop := (x =? x)%float = true.

(** A log-probability: a float that is at most zero (so not NaN). *)
Definition logprob (x : float) : Prop := (x <=? 0)%float = true.

(** [mx] is the maximum of [l]: a member that every member is at most. *)
Definition is_max (mx : float) (l : list float) : Prop :=
  mx ∈ l /\ Forall (fun x => (x <=? mx)%float = true) l.

(** The spec-level counterparts on [spec_float]. *)
Definition signed_as (s : bool) (a : spec_float) : Prop :=
  match a with
  | S754_zero s' | S754_infinity s' | S754_finite s' _ _ => s' = s
  | S754_nan => False
  end.

Definition SFnonpos (a : spec_float) : Prop := SFleb a (S754_zero false) = true.

(** The data model of the tables: the state list is a non-empty sequence of
    distinct tags, every state has its entry in the three tables, and every
    stored value is a log-probability. *)
Definition logprob_table (tbl : gmap string float) : bool :=
  forallb (fun kv => (kv.2 <=? 0)%float) (map_to_list tbl).

Definition state_ok (initial : gmap string float)
    (emission transition : gmap string (gmap string float)) (s : string) : bool :=
  match initial !! s, emission !! s, transition !! s with
  | Some i, Some e, Some tr => (i <=? 0)%float && logprob_table e && logprob_table tr
  | _, _, _ => false
  end.

Definition well_formed (states : list string) (initial : gmap string float)
    (emission transition : gmap string (gmap string float)) : bool :=
  (0 <? length states)%nat && bool_decide (NoDup states)
  && forallb (state_ok initial emission transition) states.

Definition well_formed_model (m : model) : bool :=
  well_formed (states m) (initial_state_probability m) (emission_probability m)
              (transition_probability m).

(** The value of [max(l)]. *)
Definition fmax (l : list float) : float :=
  match l with
  | [] => nan
  | x :: l' => max_from x l'
  end.

(** The probability stored in a row for a state. *)
Definition prob_of (r : row) (s : string) : float :=
  from_option PROBABILITY nan (dict_lookup s r).

Section Trellis.

Variable states : list string.
Variable initial : gmap string float.
Variable emission transition : gmap string (gmap string float).
Variable unknown_word_prob unknown_state_prob : float.

(** [initial[s]], [emission[s].get(o, unknown_word_prob)] and
    [transition[p].get(s, unknown_state_prob)]. *)
Definition init_of (s : string) : float := default nan (initial !! s).

Definition emit_of (s o : string) : float :=
  tbl_get (default ∅ (emission !! s)) o unknown_word_prob.

Definition trans_of (p s : string) : float :=
  tbl_get (default ∅ (transition !! p)) s unknown_state_prob.

(** The candidate score of predecessor [p] for state [s], over the row
    [prev] of the step before. *)
Definition candidate (prev : row) (s p : string) : float :=
  (prob_of prev p + trans_of p s)%float.

Definition candidates (prev : row) (s : string) : list float :=
  candidate prev s <$> states.

(** The predecessors whose candidate equals [mx], in state order. *)
Definition achievers (prev : row) (s : string) (mx : float) : list string :=
  List.filter (fun p => (candidate prev s p =? mx)%float) states.

(** The states of a row whose probability equals [mx], in state order. *)
Definition best_states (r : row) (mx : float) : list string :=
  List.filter (fun s => (prob_of r s =? mx)%float) states.

Definition first_cell (o s : string) : cell :=
  Cell (init_of s + emit_of s o)%float None.

Definition next_cell (prev : row) (o s : string) : cell :=
  let mx := fmax (candidates prev s) in
  Cell (mx + emit_of s o)%float (last (achievers prev s mx)).

Definition first_row (o : string) : row := (fun s => (s, first_cell o s)) <$> states.

Definition next_row (prev : row) (o : string) : row :=
  (fun s => (s, next_cell prev o s)) <$> states.

Fixpoint rows_after (prev : row) (rest : list string) : list row :=
  match rest with
  | [] => []
  | o :: rest' => next_row prev o :: rows_after (next_row prev o) rest'
  end.

Definition trellis (observation : list string) : list row :=
  match observation with
  | [] => []
  | o :: rest => first_row o :: rows_after (first_row o) rest
  end.

(** A row as the engine leaves it: one cell per state, in state order,
    each holding a log-probability. *)
Definition good_row (r : row) : Prop :=
  dict_keys r = states /\ Forall (fun s => logprob (prob_of r s)) states.

(** The rule by which a backpointer is chosen among the achievers of the
    maximum ([pick] is [head] for the first, [last] for the last): it holds
    of a trellis when every cell of a step [t >= 1] records the picked
    achiever of the maximum candidate. *)
Definition backpointer_rule (pick : list string -> option string)
    (V : list row) : Prop :=
  forall t prev r s c,
    V !! t = Some prev -> V !! (S t) = Some r ->
    s ∈ states -> dict_lookup s r = Some c ->
    exists mx, is_max mx (candidates prev s)
               /\ BACKPOINTER c = pick (achievers prev s mx).

End Trellis.

(** ** Output format *)

(** [" ".join(words)] *)
Fixpoint join_space (words : list string) : string :=
  match words with
  | [] => EmptyString
  | [w] => w
  | w :: ws => w +:+ " " +:+ join_space ws
  end.

(** [token/tag] *)
Definition pair_text (token tag : string) : string := token +:+ "/" +:+ tag.



Definition all_whitespace (s : string) : Prop :=
  Forall (fun c => is_whitespace c = true) (list_ascii_of_string s).

(** The text the output loop accumulates: every word followed by a space. *)
Definition spaced (words : list string) : string :=
  foldr (fun w text => w +:+ " " +:+ text) EmptyString words.

(** The two smoothing constants of a decode are defined and are
    log-probabilities, as the logarithm of a number in (0, 0.01] is. *)
Definition smoothing_ok (libm_log : float -> float) (distinct_word_count : Z)
    (states : list string) (uw us : float) : Prop :=
  unknown_prob libm_log distinct_word_count = Ok uw
  /\ unknown_prob libm_log (Z.of_nat (length states)) = Ok us
  /\ logprob uw /\ logprob us.

(** The fallback for a table over [count] keys, as the specification words
    it: [log((1/count) * K)]. *)
Definition unknown_log_prob (libm_log : float -> float) (count : Z) : float :=
  libm_log (inverse_of_int count * K)%float.

(** The fallback for [count] is defined: [count] is not zero, the argument
    of the logarithm is positive, and the logarithm is a log-probability, as
    the logarithm of a number in (0, 0.01] is. *)
Definition fallback_defined (libm_log : float -> float) (count : Z) : Prop :=
  count <> 0%Z
  /\ (0 <? inverse_of_int count * K)%float = true
  /\ logprob (unknown_log_prob libm_log count).

(** The table [tbl] completed over [keys]: every key of [keys] that has no
    entry gets the entry [d]; the entries of [tbl] stay. *)
Definition with_fallback (d : float) (keys : list string)
    (tbl : gmap string float) : gmap string float :=
  foldr (fun k t => match t !! k with Some _ => t | None => <[k := d]> t end)
        tbl keys.

(** ** Concrete models *)

(** The natural logarithm at the arguments of the specification's concrete
    scenario, as binary64 values. *)
Definition log_ref (x : float) : float :=
  if (x =? 0.6)%float then (-0.5108256237659907)%float
  else if (x =? 0.4)%float then (-0.916290731874155)%float
  else if (x =? 0.7)%float then (-0.35667494393873245)%float
  else if (x =? 0.3)%float then (-1.2039728043259361)%float
  else if (x =? 0.9)%float then (-0.10536051565782628)%float
  else if (x =? 0.1)%float then (-2.3025850929940455)%float
  else if (x =? 0.5)%float then (-0.6931471805599453)%float
  else if (x =? 0.001)%float then (-6.907755278982137)%float
  else if (x =? 0.005)%float then (-5.298317366548036)%float
  else nan.

Definition scenario_points : list float :=
  [0.6; 0.4; 0.7; 0.3; 0.9; 0.1; 0.5; 0.001; 0.005]%float.

Definition scenario_states : list string := ["N"; "V"].

Definition scenario_initial (log : float -> float) : gmap string float :=
  <["N" := log 0.6%float]> (<["V" := log 0.4%float]> ∅).

Definition scenario_transition (log : float -> float)
  : gmap string (gmap string float) :=
  <["N" := <["V" := log 0.7%float]> (<["N" := log 0.3%float]> ∅)]>
    (<["V" := <["N" := log 0.9%float]> (<["V" := log 0.1%float]> ∅)]> ∅).

Definition scenario_emission (log : float -> float)
  : gmap string (gmap string float) :=
  <["N" := <["dog" := log 0.5%float]> ∅]>
    (<["V" := <["run" := log 0.6%float]> ∅]> ∅).

Definition scenario_model : model :=
  Model 10 scenario_states (scenario_initial log_ref)
        (scenario_transition log_ref) (scenario_emission log_ref).

Definition scenario_uw : float := (-6.907755278982137)%float.
Definition scenario_us : float := (-5.298317366548036)%float.

(** A model in which every path has the same score: two states, equal
    initial probabilities, no recorded emission or transition. *)
Definition tie_states : list string := ["A"; "B"].
Definition tie_initial : gmap string float :=
  <["A" := (-1)%float]> (<["B" := (-1)%float]> ∅).
Definition tie_tables : gmap string (gmap string float) :=
  <["A" := ∅]> (<["B" := ∅]> ∅).
Definition tie_observation : list string := ["x"; "y"].

(** The trellis the engine builds for it, with both smoothing constants
    set to -1. *)
Definition tie_row0 : row :=
  [("A", Cell (-2)%float None); ("B", Cell (-2)%float None)].
Definition tie_row1 : row :=
  [("A", Cell (-4)%float (Some "B")); ("B", Cell (-4)%float (Some "B"))].
Definition tie_trellis : list row := [tie_row0; tie_row1].

(** A model outside the data model: the emission of "y" in state "A" is
    NaN, which [json.loads] accepts in a model file. *)
Definition nan_states : list string := ["A"].
Definition nan_initial : gmap string float := <["A" := (-1)%float]> ∅.
Definition nan_emission : gmap string (gmap string float) :=
  <["A" := <["y" := nan]> ∅]> ∅.
Definition nan_transition : gmap string (gmap string float) := <["A" := ∅]> ∅.

(** ** Paths through a trellis *)

(** [path] follows the backpointers of [V]: the tag of a step is the
    backpointer stored, one step later, in the cell of the next tag. *)
Definition follows_backpointers (V : list row) (path : list string) : Prop :=
  forall t p s, path !! t = Some p -> path !! S t = Some s ->
    exists (r : row) c,
      V !! S t = Some r /\ dict_lookup s r = Some c /\ BACKPOINTER c = Some p.

(** ** Characters of a string *)

(** The character [c] does not occur in [s]. *)
Definition free_of (c : ascii) (s : string) : Prop :=
  c ∉ list_ascii_of_string s.

(** The number of occurrences of [c] in [s]. *)
Fixpoint occurrences (c : ascii) (s : string) : nat :=
  match s with
  | EmptyString => 0
  | String c' s' => (if Ascii.eqb c' c then 1 else 0) + occurrences c s'
  end.

(** ** Rows of any trellis the engine returns *)

(** Every key of the row is a state; with [linked], every cell also
    records a state as its backpointer. *)
Definition row_within (states : list string) (linked : bool) (r : row) : Prop :=
  Forall (fun kv => kv.1 ∈ states
                    /\ (linked = true ->
                        exists p, BACKPOINTER kv.2 = Some p /\ p ∈ states)) r.

(** The first row is keyed by states, the later rows are linked too. *)
Definition trellis_within (states : list string) (V : list row) : Prop :=
  match V with
  | [] => True
  | V0 :: rows => row_within states false V0 /\ Forall (row_within states true) rows
  end.

(** * The language-identification dataset ([a2part2.py])

    [LangDataset] turns every line of a text file into its character
    bigrams, numbers the bigrams in a vocabulary and encodes a line as the
    list of its bigram ids; [collator] pads the encoded lines of a batch.
    Files are the lists of their lines, integers are [nat], and the tensors
    [collator] builds are the lists they are built from. *)

(** [__file_to_list]: the lines of a file, each [rstrip]ped. *)
Definition file_to_list (lines : list string) : list string := rstrip <$> lines.

(** Line 38. *)
Definition label_dict : pydict nat :=
  [("eng", 0); ("deu", 1); ("fra", 2); ("ita", 3); ("spa", 4)].

(** Line 55: [['$'] + [c for c in text] + ['$']]. *)
Definition characters (text : string) : list string :=
  ["$"] ++ ((fun c => String c EmptyString) <$> list_ascii_of_string text) ++ ["$"].

(** Lines 58-64, one pass: the bigram at [i] is appended, and numbered
    when a vocabulary is being built ([train]) and does not have it. *)
Definition scan_bigram (train : bool) (chars : list string)
    (st : list string * pydict nat * nat) (i : nat)
  : list string * pydict nat * nat :=
  let '(bigram_list, vocab, count) := st in
  let bigram := nth i chars EmptyString +:+ nth (i + 1) chars EmptyString in
  match train, dict_lookup bigram vocab with
  | true, None => (bigram_list ++ [bigram], dict_setitem bigram count vocab, S count)
  | _, _ => (bigram_list ++ [bigram], vocab, count)
  end.

(** Lines 54-66, one pass of the loop over the texts. *)
Definition scan_text (train : bool)
    (st : list (list string) * pydict nat * nat) (text : string)
  : list (list string) * pydict nat * nat :=
  let '(texts, vocab, count) := st in
  let chars := characters text in
  let '(bigram_list, vocab', count') :=
    foldl (scan_bigram train chars) ([], vocab, count)
          (seq 0 (length chars - 1)) in
  (texts ++ [bigram_list], vocab', count').

Record LangDataset : Type := Dataset {
  labels : list nat;
  vocab : pydict nat;
  texts : list (list string)
}.

(** [LangDataset.__init__(text_path, label_path, vocab)] on the lines of
    the two files; [None] stands for an argument left at its default. *)
Definition LangDataset_init (text_lines : list string)
    (label_lines : option (list string)) (given : option (pydict nat))
  : result LangDataset :=
  ls ← match label_lines with
       | Some lines => mapM (dict_getitem label_dict) (file_to_list lines)
       | None => Ok []
       end;
  let data := file_to_list text_lines in
  let train := match given with None => true | Some _ => false end in
  let start := match given with None => [("unk", 1)] | Some v => v end in
  let '(txts, v, _) := foldl (scan_text train) ([], start, 2) data in
  Ok (Dataset ls v txts).

(** [vocab_size]: [len(Counter(labels))] is the number of distinct labels. *)
Definition vocab_size (d : LangDataset) : nat * nat :=
  let num_vocab := length (vocab d) in
  let num_class := length (remove_dups (labels d)) in
  (num_vocab, if (num_class =? 0)%nat then 5 else num_class).

(** [__len__] *)
Definition dataset_len (d : LangDataset) : nat := length (texts d).

(** Lines 101-105: the id of one bigram. *)
Definition encode_bigram (v : pydict nat) (bigram : string) : result nat :=
  match dict_lookup bigram v with
  | Some id => Ok id
  | None => dict_getitem v "unk"
  end.

(** [__getitem__(i)] for [0 <= i]: the encoded text alone when the
    dataset has no labels (here with [None]), else with its label. *)
Definition getitem (d : LangDataset) (i : nat) : result (list nat * option nat) :=
  bigrams ← list_getitem (texts d) i;
  text ← mapM (encode_bigram (vocab d)) bigrams;
  if (length (labels d) =? 0)%nat then Ok (text, None)
  else l ← list_getitem (labels d) i; Ok (text, Some l).

(** [itertools.zip_longest] of the rows of [data], filled with 0: column [j] holds the
    [j]-th item of every row, or 0 where the row is shorter; there is a
    column for every index of the longest row. *)
Definition zip_longest (data : list (list nat)) : list (list nat) :=
  (fun j => (fun r => nth j r 0) <$> data) <$> seq 0 (max_list (length <$> data)).

(** [zip] of the columns: row [i] holds the [i]-th item of every column; there
    is a row for every index of the shortest column, none without columns. *)
Definition zip_star (columns : list (list nat)) : list (list nat) :=
  match columns with
  | [] => []
  | c :: cs =>
      (fun i => (fun col => nth i col 0) <$> columns)
        <$> seq 0 (foldr Nat.min (length c) (length <$> cs))
  end.

(** [collator(batch)]: the padded texts and, when there are any, the
    labels. *)
Definition collator (batch : list (list nat * option nat))
  : list (list nat) * option (list nat) :=
  let data := fst <$> batch in
  let ls := omap snd batch in
  let padded_data := zip_star (zip_longest data) in
  (padded_data, if (length ls =? 0)%nat then None else Some ls).

(** The bigrams of a text, and a row padded with zeros. *)
Fixpoint adjacent (chars : list string) : list string :=
  match chars with
  | a :: (b :: _) as rest => (a +:+ b) :: adjacent rest
  | _ => []
  end.

Definition bigrams_of (text : string) : list string := adjacent (characters text).

Definition pad (n : nat) (r : list nat) : list nat :=
  r ++ replicate (n - length r) 0.

(** Numbering one more bigram: a new bigram gets the next id. *)
Definition learn (vc : pydict nat * nat) (bigram : string) : pydict nat * nat :=
  match dict_lookup bigram vc.1 with
  | None => (dict_setitem bigram vc.2 vc.1, S vc.2)
  | Some _ => vc
  end.

(** The vocabulary under construction: "unk" comes first with id 1, the
    ids are 1, 2, ... in insertion order, the keys are distinct and the
    counter is the next free id. *)
Definition numbered (vc : pydict nat * nat) : Prop :=
  (exists rest, vc.1 = ("unk", 1) :: rest)
  /\ dict_values vc.1 = seq 1 (length vc.1)
  /\ NoDup (dict_keys vc.1)
  /\ vc.2 = S (length vc.1).

(** ** The vocabularies of the second dataset ([a2part2copy.py]) *)

(** [create_text_vocab], one pass of the inner loop: a new word gets
    [len(text_vocab) + 1]. *)
Definition add_word (text_vocab : pydict nat) (word : string) : pydict nat :=
  match dict_lookup word text_vocab with
  | None => dict_setitem word (length text_vocab + 1) text_vocab
  | Some _ => text_vocab
  end.

(** [create_text_vocab(data)] *)
Definition create_text_vocab (data : list (list string)) : pydict nat :=
  let text_vocab := foldl (fun v sent => foldl add_word v sent) [] data in
  dict_setitem "unk" (length text_vocab + 1) text_vocab.

(** [create_label_vocab], one pass: a new label gets [len(label_vocab)]. *)
Definition add_label (label_vocab : pydict nat) (label : string) : pydict nat :=
  match dict_lookup label label_vocab with
  | None => dict_setitem label (length label_vocab) label_vocab
  | Some _ => label_vocab
  end.

(** [create_label_vocab(data)] *)
Definition create_label_vocab (data : list string) : pydict nat :=
  foldl add_label [] data.

(** The distinct items of a list, in order of first occurrence. *)
Fixpoint first_occurrences (l : list string) : list string :=
  match l with
  | [] => []
  | x :: l' => x :: filter (fun y => y <> x) (first_occurrences l')
  end.

(** The dictionary that numbers [keys], in their order, from [start] on. *)
Definition numbering (start : nat) (keys : list string) : pydict nat :=
  zip keys (seq start (length keys)).

(** * Properties *)

(** ** Binary64 arithmetic: rounding never invents a NaN or flips a sign *)

Section SpecFloatFacts.
Implicit Types a b c : spec_float.

Lemma shr_1_nonneg mrs : (0 <= shr_m mrs)%Z -> (0 <= shr_m (shr_1 mrs))%Z.
Proof. destruct mrs as [[|[p|p|]|p] r s]; simpl; lia. Qed.

Lemma iter_shr_1_nonneg p mrs :
  (0 <= shr_m mrs)%Z -> (0 <= shr_m (SpecFloat.iter_pos shr_1 p mrs))%Z.
Proof.
  revert mrs; induction p as [p IH|p IH|]; intros mrs H; simpl;
    auto using shr_1_nonneg.
Qed.

Lemma shr_fexp_nonneg m e l :
  (0 <= m)%Z -> (0 <= shr_m (shr_fexp prec emax m e l).1)%Z.
Proof.
  intros H. unfold shr_fexp, shr.
  assert (0 <= shr_m (shr_record_of_loc m l))%Z by (destruct l as [|[]]; exact H).
  destruct (_ - _)%Z; simpl; auto using iter_shr_1_nonneg.
Qed.

Lemma round_nearest_even_nonneg m l :
  (0 <= m)%Z -> (0 <= round_nearest_even m l)%Z.
Proof. intros H. destruct l as [|[]]; simpl; try destruct (Z.even m); lia. Qed.

Lemma binary_round_aux_signed s m e l :
  (0 <= m)%Z -> signed_as s (binary_round_aux prec emax s m e l).
Proof.
  intros H. unfold binary_round_aux.
  pose proof (shr_fexp_nonneg m e l H) as H1.
  destruct (shr_fexp prec emax m e l) as [mrs' e']; simpl in H1.
  pose proof (shr_fexp_nonneg _ e' loc_Exact
    (round_nearest_even_nonneg _ (loc_of_shr_record mrs') H1)) as H2.
  destruct (shr_fexp prec emax _ e' loc_Exact) as [mrs'' e'']; simpl in H2.
  destruct (shr_m mrs'') as [|p|p]; simpl; [done| |lia].
  destruct (_ <=? _)%Z; done.
Qed.

Lemma binary_round_signed s m e : signed_as s (binary_round prec emax s m e).
Proof.
  unfold binary_round. destruct (shl_align _ _ _) as [mz ez].
  apply binary_round_aux_signed; lia.
Qed.

Lemma SFnonpos_cases a :
  SFnonpos a <-> match a with
                 | S754_zero _ => True
                 | S754_infinity s | S754_finite s _ _ => s = true
                 | S754_nan => False
                 end.
Proof.
  unfold SFnonpos, SFleb.
  destruct a as [[]|[]| |[] m e]; simpl; split; intros; done.
Qed.

Lemma SFadd_nonpos a b : SFnonpos a -> SFnonpos b -> SFnonpos (SF64add a b).
Proof.
  rewrite !SFnonpos_cases.
  destruct a as [[]|sa| |sa ma ea], b as [[]|sb| |sb mb eb]; simpl;
    try tauto; try (intros -> ?; tauto); try (intros ? ->; tauto);
    try (intros -> ->; tauto).
  intros -> ->. simpl.
  pose proof (binary_round_signed true
    (fst (shl_align ma ea (Z.min ea eb)) + fst (shl_align mb eb (Z.min ea eb)))
    (Z.min ea eb)) as H.
  destruct (binary_round _ _ _ _ _); simpl in H; done.
Qed.

(** The comparison of two floats that are not NaN is a total preorder. *)

Ltac cases_compare :=
  repeat match goal with
    | |- context [Pos.compare_cont Eq ?m ?n] =>
        change (Pos.compare_cont Eq m n) with (m ?= n)%positive
    | H : context [Pos.compare_cont Eq ?m ?n] |- _ =>
        change (Pos.compare_cont Eq m n) with (m ?= n)%positive in H
    end;
  repeat match goal with
    | |- context [(?x ?= ?y)%Z] => destruct (Z.compare_spec x y)
    | H : context [(?x ?= ?y)%Z] |- _ => destruct (Z.compare_spec x y)
    | |- context [(?x ?= ?y)%positive] => destruct (Pos.compare_spec x y)
    | H : context [(?x ?= ?y)%positive] |- _ => destruct (Pos.compare_spec x y)
    end;
  simpl in *; try done; try lia.

Lemma SFleb_refl a : a <> S754_nan -> SFleb a a = true.
Proof.
  unfold SFleb, SFcompare.
  destruct a as [[]|[]| |[] m e]; intros H; try done; cases_compare.
Qed.

Lemma SFeqb_refl a : a <> S754_nan -> SFeqb a a = true.
Proof.
  unfold SFeqb, SFcompare.
  destruct a as [[]|[]| |[] m e]; intros H; try done; cases_compare.
Qed.

Lemma SFltb_false_leb a b :
  a <> S754_nan -> b <> S754_nan -> SFltb a b = false -> SFleb b a = true.
Proof.
  unfold SFleb, SFltb, SFcompare.
  destruct a as [[]|[]| |[] ma ea], b as [[]|[]| |[] mb eb];
    intros Ha Hb H; try done; cases_compare.
Qed.

Lemma SFltb_leb a b : SFltb a b = true -> SFleb a b = true.
Proof. unfold SFleb, SFltb. by destruct (SFcompare a b) as [[]|]. Qed.

Lemma SFleb_trans a b c : SFleb a b = true -> SFleb b c = true -> SFleb a c = true.
Proof.
  unfold SFleb, SFcompare.
  destruct a as [[]|[]| |[] ma ea], b as [[]|[]| |[] mb eb],
    c as [[]|[]| |[] mc ec]; intros H1 H2; try done; cases_compare.
Qed.

End SpecFloatFacts.

Lemma number_not_nan x : number x <-> Prim2SF x <> S754_nan.
Proof.
  unfold number. rewrite FloatAxioms.eqb_spec. split.
  - intros H E. rewrite E in H. done.
  - apply SFeqb_refl.
Qed.

Lemma logprob_nonpos x : logprob x <-> SFnonpos (Prim2SF x).
Proof. unfold logprob, SFnonpos. by rewrite FloatAxioms.leb_spec. Qed.

Lemma logprob_number x : logprob x -> number x.
Proof.
  intros H%logprob_nonpos%SFnonpos_cases. apply number_not_nan.
  by destruct (Prim2SF x).
Qed.

(** The sum of two log-probabilities is a log-probability: no rounding,
    overflow or infinity can turn it into a NaN or a positive number. *)
Lemma logprob_add x y : logprob x -> logprob y -> logprob (x + y)%float.
Proof.
  intros Hx%logprob_nonpos Hy%logprob_nonpos.
  apply logprob_nonpos. rewrite FloatAxioms.add_spec. by apply SFadd_nonpos.
Qed.

Lemma fle_refl x : number x -> (x <=? x)%float = true.
Proof.
  intros H%number_not_nan. rewrite FloatAxioms.leb_spec. by apply SFleb_refl.
Qed.

Lemma fle_trans x y z :
  (x <=? y)%float = true -> (y <=? z)%float = true -> (x <=? z)%float = true.
Proof. rewrite !FloatAxioms.leb_spec. apply SFleb_trans. Qed.

Lemma flt_false_fle x y :
  number x -> number y -> (x <? y)%float = false -> (y <=? x)%float = true.
Proof.
  intros Hx%number_not_nan Hy%number_not_nan.
  rewrite FloatAxioms.ltb_spec, FloatAxioms.leb_spec. by apply SFltb_false_leb.
Qed.

Lemma flt_fle x y : (x <? y)%float = true -> (x <=? y)%float = true.
Proof. rewrite FloatAxioms.ltb_spec, FloatAxioms.leb_spec. apply SFltb_leb. Qed.

(** ** [max] *)

Lemma max_from_elem cur l : max_from cur l ∈ cur :: l.
Proof.
  revert cur; induction l as [|x l IH]; intros cur; simpl.
  - set_solver.
  - pose proof (IH (if (cur <? x)%float then x else cur)) as H. clear IH.
    apply elem_of_cons in H as [H|H]; [|by do 2 right].
    rewrite H. destruct (cur <? x)%float; [right|]; left.
Qed.

Lemma max_from_ge_cur cur l :
  number cur -> Forall number l -> (cur <=? max_from cur l)%float = true.
Proof.
  intros Hc Hl. revert cur Hc; induction Hl as [|x l Hx Hl IH]; intros cur Hc; simpl.
  - by apply fle_refl.
  - destruct (cur <? x)%float eqn:E.
    + eapply fle_trans; [by apply flt_fle|by apply IH].
    + by apply IH.
Qed.

Lemma max_from_upper cur l :
  number cur -> Forall number l ->
  Forall (fun x => (x <=? max_from cur l)%float = true) l.
Proof.
  intros Hc Hl. revert cur Hc; induction Hl as [|x l Hx Hl IH]; intros cur Hc; simpl.
  - constructor.
  - constructor.
    + destruct (cur <? x)%float eqn:E.
      * by apply max_from_ge_cur.
      * eapply fle_trans; [by apply flt_false_fle|by apply max_from_ge_cur].
    + destruct (cur <? x)%float; by apply IH.
Qed.

Lemma fmax_is_max l : l <> [] -> Forall number l -> is_max (fmax l) l.
Proof.
  destruct l as [|x l]; [done|]. intros _ H.
  apply Forall_cons in H as [Hx Hl]. split; simpl.
  - apply max_from_elem.
  - constructor; [by apply max_from_ge_cur|by apply max_from_upper].
Qed.

Lemma py_max_fmax l : l <> [] -> py_max l = Ok (fmax l).
Proof. by destruct l. Qed.

Lemma is_max_number mx l : is_max mx l -> number mx.
Proof.
  intros [Hin Hall]. rewrite Forall_forall in Hall.
  specialize (Hall _ Hin). revert Hall.
  rewrite FloatAxioms.leb_spec. intros H. apply number_not_nan.
  intros E. rewrite E in H. done.
Qed.

(** ** Loops in the error monad *)

Lemma mapM_Ok {A B} (f : A -> result B) (g : A -> B) (l : list A) :
  (forall x, x ∈ l -> f x = Ok (g x)) -> mapM f l = Ok (g <$> l).
Proof.
  induction l as [|x l IH]; intros H; simpl; [done|].
  rewrite H by left. simpl. rewrite IH; [done|].
  intros y Hy. apply H. by right.
Qed.

Lemma mapM_Ok_lookup {A B} (f : A -> result B) (l : list A) (k : list B) :
  mapM f l = Ok k ->
  length k = length l /\
  forall i x, l !! i = Some x -> exists y, k !! i = Some y /\ f x = Ok y.
Proof.
  revert k; induction l as [|x l IH]; intros k; simpl.
  - intros [= <-]. split; [done|]. intros i x H. done.
  - destruct (f x) as [y|e] eqn:Ef; simpl; [|done].
    destruct (mapM f l) as [k'|e] eqn:Em; simpl; [|done].
    intros [= <-]. destruct (IH k' eq_refl) as [Hlen Hlk].
    split; [simpl; by rewrite Hlen|].
    intros [|i] x' Hx; simpl in *.
    + injection Hx as <-. eauto.
    + by apply Hlk.
Qed.

(** ** Dictionaries *)

Lemma dict_setitem_fresh {V} k (v : V) d :
  k ∉ dict_keys d -> dict_setitem k v d = d ++ [(k, v)].
Proof.
  induction d as [|[k' v'] d IH]; simpl; [done|].
  intros H. apply not_elem_of_cons in H as [Hne Hd].
  destruct (String.eqb_spec k k'); [done|]. by rewrite IH.
Qed.

Lemma dict_setitem_twice {V} k (v w : V) d :
  dict_setitem k w (dict_setitem k v d) = dict_setitem k w d.
Proof.
  induction d as [|[k' v'] d IH]; simpl.
  - by rewrite String.eqb_refl.
  - destruct (String.eqb_spec k k') as [->|Hne]; simpl.
    + by rewrite String.eqb_refl.
    + destruct (String.eqb_spec k k'); [done|]. by rewrite IH.
Qed.

Lemma dict_keys_fmap {V} (f : string -> V) (l : list string) :
  dict_keys ((fun s => (s, f s)) <$> l) = l.
Proof.
  unfold dict_keys. rewrite <- list_fmap_compose. apply list_fmap_id.
Qed.

Lemma dict_lookup_fmap {V} (f : string -> V) (l : list string) s :
  s ∈ l -> dict_lookup s ((fun s => (s, f s)) <$> l) = Some (f s).
Proof.
  induction l as [|x l IH]; simpl; [by intros ?%elem_of_nil|].
  intros H. destruct (String.eqb_spec s x) as [->|Hne]; [done|].
  apply elem_of_cons in H as [->|H]; [done|]. by apply IH.
Qed.

Lemma dict_lookup_keys {V} (d : pydict V) s c :
  dict_lookup s d = Some c -> s ∈ dict_keys d.
Proof.
  induction d as [|[k v] d IH]; simpl; [done|].
  destruct (String.eqb_spec s k) as [->|Hne]; [intros _; by left|].
  intros H. right. by apply IH.
Qed.

(** ** What a well-formed model provides *)

Lemma logprob_table_lookup tbl k x :
  logprob_table tbl = true -> tbl !! k = Some x -> logprob x.
Proof.
  unfold logprob_table. rewrite forallb_forall. intros H Hk.
  apply (H (k, x)). apply list_elem_of_In. by apply elem_of_map_to_list.
Qed.

Lemma tbl_get_logprob tbl k d :
  logprob_table tbl = true -> logprob d -> logprob (tbl_get tbl k d).
Proof.
  intros Ht Hd. unfold tbl_get. destruct (tbl !! k) as [x|] eqn:E; simpl; [|done].
  by eapply logprob_table_lookup.
Qed.

Lemma well_formed_inv states initial emission transition :
  well_formed states initial emission transition = true ->
  states <> [] /\ NoDup states /\
  forall s, s ∈ states ->
    exists i e tr,
      initial !! s = Some i /\ emission !! s = Some e /\ transition !! s = Some tr
      /\ logprob i /\ logprob_table e = true /\ logprob_table tr = true.
Proof.
  unfold well_formed. rewrite !andb_true_iff.
  intros [[Hne Hnd] Hall]. split; [|split].
  - destruct states; [done|done].
  - by apply bool_decide_eq_true in Hnd.
  - intros s Hs. rewrite forallb_forall in Hall.
    specialize (Hall s (proj1 (list_elem_of_In _ _) Hs)).
    unfold state_ok in Hall.
    destruct (initial !! s) as [i|]; [|done].
    destruct (emission !! s) as [e|]; [|done].
    destruct (transition !! s) as [tr|]; [|done].
    rewrite !andb_true_iff in Hall. destruct Hall as [[Hi He] Htr].
    by exists i, e, tr.
Qed.

Lemma foldM_cons {A B} (body : B -> A -> result B) x l acc :
  foldM body (x :: l) acc = body acc x ≫= foldM body l.
Proof. done. Qed.

Lemma dict_lookup_head_filter {V} (f : string -> V) (test : V -> bool) l :
  List.find (fun kv => test kv.2) ((fun s => (s, f s)) <$> l)
  = (fun s => (s, f s)) <$> head (List.filter (fun s => test (f s)) l).
Proof.
  induction l as [|s l IH]; simpl; [done|].
  by destruct (test (f s)).
Qed.

(** A dictionary with distinct keys is the table of its own lookups. *)
Lemma dict_shape {V} (dflt : V) (d : pydict V) :
  NoDup (dict_keys d) ->
  d = (fun k => (k, default dflt (dict_lookup k d))) <$> dict_keys d.
Proof.
  induction d as [|[k v] d IH]; simpl; [done|].
  intros [Hk Hnd]%NoDup_cons. rewrite String.eqb_refl. simpl. f_equal.
  rewrite IH at 1 by done. apply list_fmap_ext.
  intros i k' Hk'. apply list_elem_of_lookup_2 in Hk'.
  destruct (String.eqb_spec k' k) as [->|Hne]; [done|done].
Qed.

Lemma fmap_rev {A B} (f : A -> B) (l : list A) : f <$> rev l = rev (f <$> l).
Proof.
  induction l as [|x l IH]; simpl; [done|]. by rewrite fmap_app, IH.
Qed.

(** ** The output line *)

Lemma string_app_cons c (s1 s2 : string) : String c s1 +:+ s2 = String c (s1 +:+ s2).
Proof. done. Qed.

Lemma string_app_nil_l (s : string) : "" +:+ s = s.
Proof. done. Qed.

Lemma string_app_assoc (s1 s2 s3 : string) : (s1 +:+ s2) +:+ s3 = s1 +:+ s2 +:+ s3.
Proof.
  induction s1 as [|c s1 IH]; [done|]. by rewrite !string_app_cons, IH.
Qed.

Lemma string_app_nil_r (s : string) : s +:+ "" = s.
Proof. induction s as [|c s IH]; [done|]. by rewrite string_app_cons, IH. Qed.

Lemma string_app_nonempty (s1 s2 : string) c : s1 +:+ String c s2 <> "".
Proof. by destruct s1. Qed.

Lemma drop_last_char_app (s1 s2 : string) :
  s2 <> "" -> drop_last_char (s1 +:+ s2) = s1 +:+ drop_last_char s2.
Proof.
  intros Hne. induction s1 as [|c s1 IH]; [done|].
  rewrite !string_app_cons. simpl. rewrite IH.
  destruct (s1 +:+ s2) eqn:E; [|done].
  destruct s1; [|done]. by subst.
Qed.

Lemma drop_last_spaced ws : drop_last_char (spaced ws) = join_space ws.
Proof.
  induction ws as [|w ws IH]; [done|]. simpl.
  rewrite drop_last_char_app by (by destruct ws).
  destruct ws as [|w' ws].
  - simpl. apply string_app_nil_r.
  - rewrite drop_last_char_app by apply string_app_nonempty.
    by rewrite IH.
Qed.

Lemma append_pair_ok obs ts out i o t :
  obs !! i = Some o -> ts !! i = Some t ->
  append_pair obs (Some <$> ts) out i = Ok (out +:+ pair_text o t +:+ " ").
Proof.
  intros Ho Ht. unfold append_pair, list_getitem.
  rewrite Ho, list_lookup_fmap, Ht. simpl.
  unfold pair_text. by rewrite !string_app_assoc.
Qed.

Lemma append_loop obs ts k i out :
  i + k = length obs -> length ts = length obs ->
  foldM (append_pair obs (Some <$> ts)) (seq i k) out
  = Ok (out +:+ spaced (zip_with pair_text (drop i obs) (drop i ts))).
Proof.
  revert i out; induction k as [|k IH]; intros i out Hik Hlen.
  - simpl. rewrite !drop_ge by lia. simpl. by rewrite string_app_nil_r.
  - destruct (lookup_lt_is_Some_2 obs i) as [o Ho]; [lia|].
    destruct (lookup_lt_is_Some_2 ts i) as [t Ht]; [lia|].
    rewrite <- cons_seq, foldM_cons, (append_pair_ok obs ts out i o t Ho Ht).
    simpl. rewrite IH by lia.
    rewrite (drop_S obs o i Ho), (drop_S ts t i Ht). simpl.
    by rewrite !string_app_assoc.
Qed.

(** The output is the [token/tag] pairs joined by single spaces. *)
Lemma format_output_ok obs ts :
  length ts = length obs ->
  format_output obs (Some <$> ts) = Ok (join_space (zip_with pair_text obs ts)).
Proof.
  intros Hlen. unfold format_output.
  rewrite (append_loop obs ts (length obs) 0 "") by done. simpl.
  by rewrite string_app_nil_l, drop_last_spaced.
Qed.

(** ** The engine computes the trellis of the specification *)

Section Engine.

Variable states : list string.
Variable initial : gmap string float.
Variable emission transition : gmap string (gmap string float).
Variable uw us : float.

Hypothesis Hwf : well_formed states initial emission transition = true.
Hypothesis Huw : logprob uw.
Hypothesis Hus : logprob us.

Abbreviation init_of := (init_of initial).
Abbreviation emit_of := (emit_of emission uw).
Abbreviation trans_of := (trans_of transition us).
Abbreviation candidate := (candidate transition us).
Abbreviation candidates := (candidates states transition us).
Abbreviation achievers := (achievers states transition us).
Abbreviation first_row := (first_row states initial emission uw).
Abbreviation next_row := (next_row states emission transition uw us).
Abbreviation next_cell := (next_cell states emission transition uw us).
Abbreviation trellis := (trellis states initial emission transition uw us).
Abbreviation good_row := (good_row states).
Abbreviation rows_after := (rows_after states emission transition uw us).

Lemma states_nonempty : states <> [].
Proof. by destruct (well_formed_inv _ _ _ _ Hwf). Qed.

Lemma states_NoDup : NoDup states.
Proof. by destruct (well_formed_inv _ _ _ _ Hwf) as (_ & ? & _). Qed.

Lemma initial_getitem s :
  s ∈ states -> tbl_getitem initial s = Ok (init_of s) /\ logprob (init_of s).
Proof.
  intros Hs. destruct (well_formed_inv _ _ _ _ Hwf) as (_ & _ & H).
  destruct (H s Hs) as (i & e & tr & Hi & _ & _ & Hl & _).
  unfold tbl_getitem, init_of. by rewrite Hi.
Qed.

Lemma emission_getitem s :
  s ∈ states ->
  exists e, tbl_getitem emission s = Ok e
            /\ forall o, tbl_get e o uw = emit_of s o /\ logprob (emit_of s o).
Proof.
  intros Hs. destruct (well_formed_inv _ _ _ _ Hwf) as (_ & _ & H).
  destruct (H s Hs) as (i & e & tr & _ & He & _ & _ & Hl & _).
  exists e. unfold tbl_getitem, emit_of. rewrite He. simpl.
  split; [done|]. intros o. split; [done|]. by apply tbl_get_logprob.
Qed.

Lemma transition_getitem p :
  p ∈ states ->
  exists tr, tbl_getitem transition p = Ok tr
             /\ forall s, tbl_get tr s us = trans_of p s /\ logprob (trans_of p s).
Proof.
  intros Hp. destruct (well_formed_inv _ _ _ _ Hwf) as (_ & _ & H).
  destruct (H p Hp) as (i & e & tr & _ & _ & Htr & _ & _ & Hl).
  exists tr. unfold tbl_getitem, trans_of. rewrite Htr. simpl.
  split; [done|]. intros s. split; [done|]. by apply tbl_get_logprob.
Qed.

(** *** Rows *)

Lemma prob_of_fmap (f : string -> cell) s :
  s ∈ states -> prob_of ((fun s => (s, f s)) <$> states) s = PROBABILITY (f s).
Proof. intros Hs. unfold prob_of. by rewrite dict_lookup_fmap. Qed.

Lemma first_row_good o : good_row (first_row o).
Proof.
  split; [apply dict_keys_fmap|].
  apply Forall_forall. intros s Hs. unfold first_row. rewrite prob_of_fmap by done.
  simpl. apply logprob_add; [by apply initial_getitem|].
  destruct (emission_getitem s Hs) as (e & _ & H). apply H.
Qed.

Lemma good_row_lookup r p :
  good_row r -> p ∈ states ->
  exists c, dict_lookup p r = Some c /\ PROBABILITY c = prob_of r p
            /\ logprob (prob_of r p).
Proof.
  intros [Hk Hl] Hp. rewrite Forall_forall in Hl. specialize (Hl p Hp).
  unfold prob_of in *. destruct (dict_lookup p r) as [c|] eqn:E; simpl in *.
  - by exists c.
  - by vm_compute in Hl.
Qed.

Lemma candidate_logprob prev s p :
  good_row prev -> p ∈ states -> logprob (candidate prev s p).
Proof.
  intros Hg Hp. apply logprob_add.
  - by destruct (good_row_lookup prev p Hg Hp) as (c & _ & _ & H).
  - destruct (transition_getitem p Hp) as (tr & _ & H). apply H.
Qed.

Lemma candidates_logprob prev s :
  good_row prev -> Forall logprob (candidates prev s).
Proof.
  intros Hg. apply Forall_fmap, Forall_forall. intros p Hp.
  by apply candidate_logprob.
Qed.

Lemma candidates_nonempty prev s : candidates prev s <> [].
Proof.
  unfold candidates. pose proof states_nonempty. by destruct states.
Qed.

Lemma candidates_max prev s :
  good_row prev -> is_max (fmax (candidates prev s)) (candidates prev s).
Proof.
  intros Hg. apply fmax_is_max; [apply candidates_nonempty|].
  eapply Forall_impl; [by apply candidates_logprob|]. apply logprob_number.
Qed.

Lemma fmax_candidates_logprob prev s :
  good_row prev -> logprob (fmax (candidates prev s)).
Proof.
  intros Hg. destruct (candidates_max prev s Hg) as [Hin _].
  pose proof (candidates_logprob prev s Hg) as H.
  rewrite Forall_forall in H. by apply H.
Qed.

(** Some predecessor achieves the maximum, so a backpointer exists. *)
Lemma achievers_last prev s :
  good_row prev ->
  exists p, last (achievers prev s (fmax (candidates prev s))) = Some p
            /\ p ∈ states.
Proof.
  intros Hg. destruct (candidates_max prev s Hg) as [Hin _].
  apply list_elem_of_fmap in Hin as (p & Hp & Hps).
  assert (p ∈ achievers prev s (fmax (candidates prev s))) as Hach.
  { apply list_elem_of_In, filter_In. split; [by apply list_elem_of_In|].
    rewrite Hp. apply logprob_number. rewrite <- Hp.
    by apply fmax_candidates_logprob. }
  destruct (last (achievers prev s (fmax (candidates prev s)))) as [q|] eqn:E.
  - exists q. split; [done|].
    apply last_Some_elem_of in E.
    apply list_elem_of_In, filter_In in E as [E _]. by apply list_elem_of_In.
  - apply last_None in E. rewrite E in Hach. by apply elem_of_nil in Hach.
Qed.

Lemma next_row_good prev o : good_row prev -> good_row (next_row prev o).
Proof.
  intros Hg. split; [apply dict_keys_fmap|].
  apply Forall_forall. intros s Hs. unfold next_row. rewrite prob_of_fmap by done.
  simpl. apply logprob_add; [by apply fmax_candidates_logprob|].
  destruct (emission_getitem s Hs) as (e & _ & H). apply H.
Qed.

Lemma rows_after_good prev rest :
  good_row prev -> Forall good_row (rows_after prev rest).
Proof.
  revert prev; induction rest as [|o rest IH]; intros prev Hg; simpl.
  - constructor.
  - constructor; [by apply next_row_good|]. apply IH. by apply next_row_good.
Qed.

Lemma trellis_good obs : Forall good_row (trellis obs).
Proof.
  destruct obs as [|o rest]; simpl; [constructor|].
  constructor; [apply first_row_good|]. apply rows_after_good, first_row_good.
Qed.

Lemma rows_after_length prev rest :
  length (rows_after prev rest) = length rest.
Proof. revert prev; induction rest as [|o rest IH]; intros prev; simpl; auto. Qed.

Lemma trellis_length obs : length (trellis obs) = length obs.
Proof. destruct obs; simpl; [done|]. by rewrite rows_after_length. Qed.

(** Each row after the first is the [next_row] of the one before. *)
Lemma rows_after_step prev rest t :
  forall o, rest !! t = Some o ->
  exists r r', (prev :: rows_after prev rest) !! t = Some r
               /\ rows_after prev rest !! t = Some r'
               /\ r' = next_row r o.
Proof.
  revert prev t; induction rest as [|o' rest IH]; intros prev t o Ho; [done|].
  destruct t as [|t]; simpl in *.
  - injection Ho as <-. by eexists _, _.
  - destruct (IH (next_row prev o') t o Ho) as (r & r' & H1 & H2 & H3).
    by exists r, r'.
Qed.

Lemma trellis_step obs t o :
  obs !! S t = Some o ->
  exists r, trellis obs !! t = Some r /\ trellis obs !! S t = Some (next_row r o).
Proof.
  destruct obs as [|o0 rest]; [done|]. simpl. intros Ho.
  destruct (rows_after_step (first_row o0) rest t o Ho) as (r & r' & H1 & H2 & ->).
  by exists r.
Qed.

Lemma trellis_first o rest : trellis (o :: rest) !! 0 = Some (first_row o).
Proof. done. Qed.

(** *** The loops of [viterbi] *)

Lemma init_cell_ok o rest acc s :
  s ∈ states ->
  init_cell (o :: rest) initial emission uw acc s
  = Ok (dict_setitem s (first_cell initial emission uw o s) acc).
Proof.
  intros Hst. unfold init_cell.
  destruct (initial_getitem s Hst) as [-> _]. simpl.
  destruct (emission_getitem s Hst) as (e & -> & He). simpl.
  by destruct (He o) as [-> _].
Qed.

Lemma init_loop o rest l acc :
  (forall s, s ∈ l -> s ∈ states) -> NoDup l ->
  (forall s, s ∈ l -> s ∉ dict_keys acc) ->
  foldM (init_cell (o :: rest) initial emission uw) l acc
  = Ok (acc ++ ((fun s => (s, first_cell initial emission uw o s)) <$> l)).
Proof.
  revert acc; induction l as [|s l IH]; intros acc Hsub Hnd Hfresh.
  - simpl. by rewrite app_nil_r.
  - apply NoDup_cons in Hnd as [Hs Hnd].
    rewrite foldM_cons, init_cell_ok by (apply Hsub; left). simpl.
    rewrite dict_setitem_fresh by (apply Hfresh; left).
    rewrite IH; [by rewrite <- app_assoc|by intros; apply Hsub; right|done|].
    intros s' Hs'. unfold dict_keys. rewrite fmap_app. simpl.
    rewrite elem_of_app, list_elem_of_singleton.
    intros [H| ->]; [|done]. eapply Hfresh; [by right|done].
Qed.

Lemma transition_score_ok V t prev s p :
  V !! t = Some prev -> good_row prev -> p ∈ states ->
  transition_score transition us V (S t) s p = Ok (candidate prev s p).
Proof.
  intros HV Hg Hp. unfold transition_score, list_getitem.
  replace (S t - 1) with t by lia. rewrite HV. simpl.
  destruct (good_row_lookup prev p Hg Hp) as (c & Hc & Hpc & _).
  unfold dict_getitem. rewrite Hc. simpl.
  destruct (transition_getitem p Hp) as (tr & -> & Htr). simpl.
  destruct (Htr s) as [-> _]. unfold candidate. by rewrite Hpc.
Qed.

Lemma record_backpointer_ok V t prev s mx me acc p :
  V !! t = Some prev -> good_row prev -> p ∈ states ->
  record_backpointer transition us V (S t) s mx me acc p
  = Ok (if (candidate prev s p =? mx)%float
        then dict_setitem s (Cell me (Some p)) acc else acc).
Proof.
  intros HV Hg Hp. unfold record_backpointer.
  rewrite (transition_score_ok V t prev s p HV Hg Hp). simpl.
  by destruct (candidate prev s p =? mx)%float.
Qed.

(** The loop of lines 42-47 has no [break]: every achiever overwrites the
    cell, and the last one stays. *)
Lemma record_loop V t prev s mx me l acc :
  V !! t = Some prev -> good_row prev -> (forall p, p ∈ l -> p ∈ states) ->
  foldM (record_backpointer transition us V (S t) s mx me) l acc
  = Ok (match last (List.filter (fun p => (candidate prev s p =? mx)%float) l) with
        | Some p => dict_setitem s (Cell me (Some p)) acc
        | None => acc
        end).
Proof.
  intros HV Hg. revert acc; induction l as [|p l IH]; intros acc Hsub; [done|].
  rewrite foldM_cons.
  rewrite (record_backpointer_ok V t prev) by (try done; apply Hsub; left).
  simpl.
  assert (forall q, q ∈ l -> q ∈ states) as Hsub' by (intros; apply Hsub; by right).
  destruct (candidate prev s p =? mx)%float; rewrite IH by done; [|done].
  rewrite last_cons.
  destruct (last (List.filter _ l)); [|done]. by rewrite dict_setitem_twice.
Qed.

Lemma fill_cell_ok V t prev o rest s acc :
  V !! t = Some prev -> good_row prev -> rest !! S t = Some o ->
  s ∈ states -> s ∉ dict_keys acc ->
  fill_cell rest states emission transition uw us V (S t) acc s
  = Ok (acc ++ [(s, next_cell prev o s)]).
Proof.
  intros HV Hg Ho Hs Hfresh. unfold fill_cell.
  rewrite (mapM_Ok _ (candidate prev s))
    by (intros p Hp; by apply transition_score_ok).
  simpl. fold (candidates prev s).
  rewrite py_max_fmax by apply candidates_nonempty. simpl.
  destruct (emission_getitem s Hs) as (e & -> & He). simpl.
  unfold list_getitem. rewrite Ho. simpl.
  destruct (He o) as [-> _].
  rewrite (record_loop V t prev) by done.
  fold (achievers prev s (fmax (candidates prev s))).
  destruct (achievers_last prev s Hg) as (p & Hp & _).
  rewrite Hp, dict_setitem_fresh by done.
  unfold next_cell. simpl. by rewrite Hp.
Qed.

Lemma fill_loop V t prev o rest l acc :
  V !! t = Some prev -> good_row prev -> rest !! S t = Some o ->
  (forall s, s ∈ l -> s ∈ states) -> NoDup l ->
  (forall s, s ∈ l -> s ∉ dict_keys acc) ->
  foldM (fill_cell rest states emission transition uw us V (S t)) l acc
  = Ok (acc ++ ((fun s => (s, next_cell prev o s)) <$> l)).
Proof.
  intros HV Hg Ho. revert acc; induction l as [|s l IH];
    intros acc Hsub Hnd Hfresh.
  - simpl. by rewrite app_nil_r.
  - apply NoDup_cons in Hnd as [Hs Hnd].
    rewrite foldM_cons.
    assert (s ∈ s :: l) as Hhere by left.
    rewrite (fill_cell_ok V t prev o rest s acc HV Hg Ho
               (Hsub s Hhere) (Hfresh s Hhere)).
    simpl. rewrite IH; [by rewrite <- app_assoc|by intros; apply Hsub; right|done|].
    intros s' Hs'. unfold dict_keys. rewrite fmap_app. simpl.
    rewrite elem_of_app, list_elem_of_singleton.
    intros [H| ->]; [|done]. eapply Hfresh; [by right|done].
Qed.

Lemma extend_trellis_ok V t prev o obs :
  V !! t = Some prev -> good_row prev -> obs !! S t = Some o ->
  extend_trellis obs states emission transition uw us V (S t)
  = Ok (V ++ [next_row prev o]).
Proof.
  intros HV Hg Ho. unfold extend_trellis.
  by rewrite (fill_loop V t prev o obs states [] HV Hg Ho
                (fun s H => H) states_NoDup (fun s _ => not_elem_of_nil s)).
Qed.

Lemma extend_loop obs k t :
  t + S k = length obs ->
  foldM (extend_trellis obs states emission transition uw us)
        (seq (S t) k) (take (S t) (trellis obs))
  = Ok (trellis obs).
Proof.
  revert t; induction k as [|k IH]; intros t Hlen.
  - simpl. rewrite take_ge; [done|]. rewrite trellis_length. lia.
  - destruct (lookup_lt_is_Some_2 obs (S t)) as [o Ho]; [lia|].
    destruct (trellis_step obs t o Ho) as (r & Hr & Hnext).
    rewrite <- cons_seq, foldM_cons.
    rewrite (extend_trellis_ok _ t r o); try done.
    + simpl. rewrite <- (take_S_r _ _ _ Hnext). apply IH. lia.
    + rewrite lookup_take_lt by lia. done.
    + pose proof (trellis_good obs) as Hg. rewrite Forall_forall in Hg.
      apply Hg. by eapply list_elem_of_lookup_2.
Qed.

(** The engine succeeds on every non-empty observation and returns the
    trellis of the specification. *)
Lemma build_trellis_ok obs :
  obs <> [] ->
  build_trellis obs states initial emission transition uw us = Ok (trellis obs).
Proof.
  destruct obs as [|o rest]; [done|]. intros _. unfold build_trellis.
  rewrite init_loop; [|done|apply states_NoDup|intros s _; apply not_elem_of_nil].
  simpl. rewrite Nat.sub_0_r.
  apply (extend_loop (o :: rest) (length rest) 0). simpl. lia.
Qed.

(** *** The backtracker on the engine's trellis *)

Lemma good_row_shape r :
  good_row r ->
  r = (fun s => (s, default (Cell nan None) (dict_lookup s r))) <$> states.
Proof.
  intros [Hk _]. rewrite <- Hk. apply dict_shape.
  rewrite Hk. apply states_NoDup.
Qed.

Lemma good_row_probs r :
  good_row r -> PROBABILITY <$> dict_values r = prob_of r <$> states.
Proof.
  intros Hg. unfold dict_values. rewrite (good_row_shape r Hg) at 1.
  rewrite <- !list_fmap_compose. apply list_fmap_ext.
  intros i s _. simpl. unfold prob_of. by destruct (dict_lookup s r).
Qed.

Lemma good_row_max r :
  good_row r ->
  py_max (PROBABILITY <$> dict_values r) = Ok (fmax (prob_of r <$> states))
  /\ is_max (fmax (prob_of r <$> states)) (prob_of r <$> states).
Proof.
  intros Hg. rewrite good_row_probs by done.
  assert (prob_of r <$> states <> []) as Hne
    by (pose proof states_nonempty; by destruct states).
  split; [by apply py_max_fmax|]. apply fmax_is_max; [done|].
  apply Forall_fmap. destruct Hg as [_ Hl].
  eapply Forall_impl; [exact Hl|]. intros s. apply logprob_number.
Qed.

(** The sentinel branch of the backtracker is not taken: the first state
    whose probability equals the maximum exists and is selected. *)
Lemma first_best_ok r :
  good_row r ->
  exists s, head (best_states states r (fmax (prob_of r <$> states))) = Some s
            /\ s ∈ states
            /\ first_best (fmax (prob_of r <$> states)) r = ([Some s], Some s).
Proof.
  intros Hg. destruct (good_row_max r Hg) as [_ [Hin Hall]].
  set (mx := fmax (prob_of r <$> states)) in *.
  assert (exists s, head (best_states states r mx) = Some s) as [s Hs].
  { apply list_elem_of_fmap in Hin as (s & Hs & Hst).
    assert (s ∈ best_states states r mx) as Hb.
    { apply list_elem_of_In, filter_In. split; [by apply list_elem_of_In|].
      rewrite Hs. apply logprob_number.
      destruct Hg as [_ Hl]. rewrite Forall_forall in Hl. by apply Hl. }
    destruct (best_states states r mx) as [|s' ?]; [by apply elem_of_nil in Hb|].
    by exists s'. }
  exists s. split; [done|]. split.
  - apply head_Some_elem_of in Hs.
    apply list_elem_of_In, filter_In in Hs as [Hs _]. by apply list_elem_of_In.
  - unfold first_best. rewrite (good_row_shape r Hg) at 1.
    rewrite (dict_lookup_head_filter _ (fun c => (PROBABILITY c =? mx)%float)).
    replace (List.filter _ states) with (best_states states r mx).
    + by rewrite Hs.
    + apply filter_ext. intros s'. unfold prob_of. by destruct (dict_lookup s' r).
Qed.

Lemma trellis_last obs :
  obs <> [] -> exists r, last (trellis obs) = Some r /\ good_row r.
Proof.
  intros Hne. destruct (last (trellis obs)) as [r|] eqn:E.
  - exists r. split; [done|]. pose proof (trellis_good obs) as Hg.
    rewrite Forall_forall in Hg. apply Hg. by apply last_Some_elem_of.
  - apply last_None in E. pose proof (trellis_length obs) as Hl.
    rewrite E in Hl. by destruct obs.
Qed.

Lemma next_cell_backpointer prev o s :
  good_row prev -> exists p, BACKPOINTER (next_cell prev o s) = Some p /\ p ∈ states.
Proof. intros Hg. simpl. by apply achievers_last. Qed.

Lemma backtrack_step_ok obs t tags s :
  S t < length obs -> s ∈ states ->
  exists p, p ∈ states
            /\ backtrack_step (trellis obs) (tags, Some s) t
               = Ok (tags ++ [Some p], Some p).
Proof.
  intros Ht Hs. destruct (lookup_lt_is_Some_2 obs (S t) Ht) as [o Ho].
  destruct (trellis_step obs t o Ho) as (prev & Hprev & Hr).
  assert (good_row prev) as Hg.
  { pose proof (trellis_good obs) as Hg. rewrite Forall_forall in Hg.
    apply Hg. by eapply list_elem_of_lookup_2. }
  destruct (next_cell_backpointer prev o s Hg) as (p & Hp & Hps).
  exists p. split; [done|]. unfold backtrack_step, list_getitem.
  replace (t + 1) with (S t) by lia. rewrite Hr. simpl.
  unfold dict_getitem, next_row. rewrite dict_lookup_fmap by done.
  simpl in *. by rewrite Hp.
Qed.

Lemma backtrack_loop obs ts :
  Forall (fun t => S t < length obs) ts ->
  forall tags s, s ∈ states ->
  exists more p,
    foldM (backtrack_step (trellis obs)) ts (tags, Some s)
    = Ok (tags ++ (Some <$> more), Some p)
    /\ length more = length ts /\ Forall (fun q => q ∈ states) more /\ p ∈ states.
Proof.
  induction 1 as [|t ts Ht Hts IH]; intros tags s Hs.
  - exists [], s. simpl. by rewrite app_nil_r.
  - destruct (backtrack_step_ok obs t tags s Ht Hs) as (p & Hp & Hstep).
    destruct (IH (tags ++ [Some p]) p Hp) as (more & q & Hrun & Hlen & Hall & Hq).
    exists (p :: more), q. rewrite foldM_cons, Hstep. simpl.
    rewrite Hrun, <- app_assoc. simpl. repeat split; auto.
Qed.

(** The backtracker returns one tag per step, every tag a state of the
    model, the last one the first best state of the final row. *)
Lemma backtrack_ok obs :
  obs <> [] ->
  exists r s path,
    last (trellis obs) = Some r /\ good_row r
    /\ head (best_states states r (fmax (prob_of r <$> states))) = Some s
    /\ first_best (fmax (prob_of r <$> states)) r = ([Some s], Some s)
    /\ backtrack_viterbi_matrix (trellis obs) = Ok (Some <$> (path ++ [s]))
    /\ length (path ++ [s]) = length obs
    /\ Forall (fun q => q ∈ states) (path ++ [s]).
Proof.
  intros Hne. destruct (trellis_last obs Hne) as (r & Hlast & Hg).
  destruct (first_best_ok r Hg) as (s & Hhead & Hs & Hfirst).
  destruct (backtrack_loop obs (rev (seq 0 (length obs - 1)))) with (tags := [Some s]) (s := s)
    as (more & p & Hrun & Hlen & Hall & _); [|done|].
  { apply Forall_forall. intros t Ht. apply list_elem_of_In, in_rev, in_seq in Ht. lia. }
  exists r, s, (rev more). do 4 (split; [done|]). split; [|split].
  - unfold backtrack_viterbi_matrix, list_getlast. rewrite Hlast. simpl.
    destruct (good_row_max r Hg) as [-> _]. simpl.
    rewrite Hfirst, trellis_length, Hrun. simpl.
    by rewrite fmap_app, fmap_rev.
  - rewrite length_app, length_rev, Hlen, length_rev, length_seq. simpl.
    destruct obs; [done|simpl; lia].
  - apply Forall_app. split; [by apply Forall_rev|]. by constructor.
Qed.

End Engine.

(** ** A whole decode *)

Section Decode.

Variable libm_log : float -> float.
Variable distinct_word_count : Z.
Variable states : list string.
Variable initial : gmap string float.
Variable emission transition : gmap string (gmap string float).
Variable uw us : float.

Hypothesis Hwf : well_formed states initial emission transition = true.
Hypothesis Hsm : smoothing_ok libm_log distinct_word_count states uw us.

Lemma viterbi_unfold obs :
  viterbi libm_log obs distinct_word_count states initial emission transition
  = V ← build_trellis obs states initial emission transition uw us;
    tags ← backtrack_viterbi_matrix V;
    format_output obs tags.
Proof.
  destruct Hsm as (Hw & Hs & _). unfold viterbi. by rewrite Hw, Hs.
Qed.

(** A decode of a non-empty observation succeeds; its output pairs every
    token with a state of the model. *)
Lemma viterbi_ok obs :
  obs <> [] ->
  exists r s path,
    last (trellis states initial emission transition uw us obs) = Some r
    /\ head (best_states states r (fmax (prob_of r <$> states))) = Some s
    /\ length (path ++ [s]) = length obs
    /\ Forall (fun q => q ∈ states) (path ++ [s])
    /\ viterbi libm_log obs distinct_word_count states initial emission transition
       = Ok (join_space (zip_with pair_text obs (path ++ [s]))).
Proof.
  intros Hne. destruct Hsm as (_ & _ & Huw & Hus).
  destruct (backtrack_ok states initial emission transition uw us Hwf Huw Hus obs Hne)
    as (r & s & path & Hlast & _ & Hhead & _ & Hback & Hlen & Hall).
  exists r, s, path. do 4 (split; [done|]).
  rewrite viterbi_unfold, build_trellis_ok by done. simpl.
  rewrite Hback. simpl. by apply format_output_ok.
Qed.

End Decode.

(** ** The statements of the specification *)

Lemma math_log_logprob libm_log x u :
  math_log libm_log x = Ok u -> logprob u -> u = libm_log x.
Proof.
  unfold math_log. intros H Hu. destruct (is_nan x) eqn:En.
  - injection H as <-. apply logprob_number in Hu.
    unfold is_nan in En. unfold number in Hu. by rewrite Hu in En.
  - destruct (0 <? x)%float; [by injection H|done].
Qed.

Lemma unknown_prob_logprob libm_log count u :
  unknown_prob libm_log count = Ok u -> logprob u ->
  count <> 0%Z /\ u = libm_log (inverse_of_int count * K)%float.
Proof.
  unfold unknown_prob, one_over. intros H Hu.
  destruct (Z.eqb_spec count 0); [done|]. split; [done|].
  by apply math_log_logprob.
Qed.

Lemma init_cell_empty initial emission uw acc s :
  raises (init_cell [] initial emission uw acc s).
Proof.
  unfold init_cell.
  destruct (tbl_getitem initial s) as [i|e]; [|by exists e].
  destruct (tbl_getitem emission s) as [em|e]; [|by exists e].
  by exists IndexError.
Qed.

Lemma build_trellis_empty states initial emission transition uw us :
  states <> [] ->
  raises (build_trellis [] states initial emission transition uw us).
Proof.
  destruct states as [|s l]; [done|]. intros _.
  destruct (init_cell_empty initial emission uw [] s) as [e He].
  exists e. unfold build_trellis. by rewrite foldM_cons, He.
Qed.

(** C9.  A zero-length observation makes [viterbi] raise, whatever the
    model: either a smoothing constant cannot be computed, or the first
    pass of the initialisation loop fails on a missing table entry or on
    [observation[0]]. *)
Theorem empty_observation_raises libm_log distinct_word_count states
    initial emission transition :
  raises (viterbi libm_log [] distinct_word_count states
                  initial emission transition).
Proof.
  unfold viterbi.
  destruct (unknown_prob libm_log distinct_word_count) as [uw|e]; [|exists e; reflexivity].
  destruct (unknown_prob libm_log (Z.of_nat (length states))) as [us|e] eqn:Es;
    [|exists e; reflexivity].
  assert (states <> []) as Hne.
  { intros ->. by vm_compute in Es. }
  destruct (build_trellis_empty states initial emission transition uw us Hne)
    as [e He].
  exists e. simpl. by rewrite He.
Qed.

(** C5.  On the concrete scenario of the specification, for every
    logarithm that takes the binary64 values of [log_ref] at the
    scenario's arguments, decoding ["dog"; "run"] yields "dog/N run/V". *)
Theorem scenario_output libm_log :
  Forall (fun x => libm_log x = log_ref x) scenario_points ->
  viterbi libm_log ["dog"; "run"] 10 scenario_states
          (scenario_initial libm_log) (scenario_emission libm_log)
          (scenario_transition libm_log)
  = Ok "dog/N run/V".
Proof.
  intros H. unfold scenario_points in H.
  repeat match goal with
         | H : Forall _ (_ :: _) |- _ =>
             let E := fresh "E" in apply Forall_cons in H as [E H]; vm_compute in E
         end.
  assert (unknown_prob libm_log 10 = Ok scenario_uw) as Hw
    by (vm_compute; by f_equal).
  assert (unknown_prob libm_log (Z.of_nat (length scenario_states)) = Ok scenario_us)
    as Hs by (vm_compute; by f_equal).
  unfold viterbi. rewrite Hw, Hs.
  unfold scenario_initial, scenario_emission, scenario_transition.
  rewrite E, E0, E1, E2, E3, E4, E5.
  by vm_compute.
Qed.

Lemma scenario_output_witness :
  viterbi log_ref ["dog"; "run"] 10 scenario_states
          (scenario_initial log_ref) (scenario_emission log_ref)
          (scenario_transition log_ref)
  = Ok "dog/N run/V".
Proof.
  apply (scenario_output log_ref). unfold scenario_points.
  repeat constructor.
Defined.

Lemma concat_length_uniform {A} (ls : list (list A)) k :
  Forall (fun l => length l = k) ls -> length (concat ls) = length ls * k.
Proof.
  induction 1 as [|l ls Hl _ IH]; simpl; [done|].
  rewrite length_app, IH, Hl. done.
Qed.

Lemma good_row_length states r : good_row states r -> length r = length states.
Proof.
  intros [Hk _]. rewrite <- Hk. unfold dict_keys. by rewrite length_fmap.
Qed.

(** What the engine returns is the trellis of the specification. *)
Lemma build_trellis_inv states initial emission transition uw us obs V :
  well_formed states initial emission transition = true ->
  logprob uw -> logprob us ->
  build_trellis obs states initial emission transition uw us = Ok V ->
  obs <> [] /\ V = trellis states initial emission transition uw us obs.
Proof.
  intros Hwf Huw Hus HV. destruct obs as [|o rest].
  - destruct (build_trellis_empty states initial emission transition uw us)
      as [e He]; [by eapply states_nonempty|congruence].
  - split; [done|]. rewrite build_trellis_ok in HV by done. by injection HV.
Qed.

(** The cell of a step [t >= 1] is the [next_cell] of the row before. *)
Lemma trellis_cell states initial emission transition uw us obs t (prev r : row) s c :
  well_formed states initial emission transition = true ->
  logprob uw -> logprob us ->
  trellis states initial emission transition uw us obs !! t = Some prev ->
  trellis states initial emission transition uw us obs !! S t = Some r ->
  s ∈ states -> dict_lookup s r = Some c ->
  good_row states prev
  /\ exists o, obs !! S t = Some o
               /\ r = next_row states emission transition uw us prev o
               /\ c = next_cell states emission transition uw us prev o s.
Proof.
  intros Hwf Huw Hus Hprev Hr Hs Hc.
  assert (S t < length obs) as Hlt.
  { apply lookup_lt_Some in Hr. by rewrite trellis_length in Hr. }
  destruct (lookup_lt_is_Some_2 obs (S t) Hlt) as [o Ho].
  destruct (trellis_step states initial emission transition uw us obs t o Ho)
    as (r0 & Hr0 & Hnext).
  rewrite Hprev in Hr0. injection Hr0 as <-.
  rewrite Hr in Hnext. injection Hnext as ->.
  split.
  - pose proof (trellis_good states initial emission transition uw us Hwf Huw Hus obs) as Hg.
    rewrite Forall_forall in Hg. apply Hg. by eapply list_elem_of_lookup_2.
  - exists o. do 2 (split; [done|]).
    unfold next_row in Hc. rewrite dict_lookup_fmap in Hc by done.
    by injection Hc.
Qed.

(** C1, as the code has it.  Every cell of a step [t >= 1] exists and
    records as its backpointer the LAST state, in the declared order, whose
    candidate score equals the maximum candidate: the loop that records the
    backpointer does not stop at the first match. *)
Theorem backpointer_is_last_achiever states initial emission transition uw us obs V :
  well_formed states initial emission transition = true ->
  logprob uw -> logprob us ->
  build_trellis obs states initial emission transition uw us = Ok V ->
  Forall (fun r => dict_keys r = states) V
  /\ backpointer_rule states transition us last V.
Proof.
  intros Hwf Huw Hus HV.
  destruct (build_trellis_inv _ _ _ _ _ _ _ _ Hwf Huw Hus HV) as [Hne ->].
  split.
  - eapply Forall_impl;
      [apply (trellis_good states initial emission transition uw us Hwf Huw Hus)|].
    by intros r [Hk _].
  - intros t prev r s c Hprev Hr Hs Hc.
    destruct (trellis_cell _ _ _ _ _ _ _ _ _ _ _ _ Hwf Huw Hus Hprev Hr Hs Hc)
      as (Hg & o & _ & _ & ->).
    exists (fmax (candidates states transition us prev s)). split; [|done].
    by eapply candidates_max.
Qed.

Lemma backpointer_is_last_achiever_witness :
  Forall (fun r => dict_keys r = tie_states)
         (trellis tie_states tie_initial tie_tables tie_tables
                  (-1)%float (-1)%float tie_observation)
  /\ backpointer_rule tie_states tie_tables (-1)%float last
       (trellis tie_states tie_initial tie_tables tie_tables
                (-1)%float (-1)%float tie_observation).
Proof.
  apply (backpointer_is_last_achiever tie_states tie_initial tie_tables tie_tables
           (-1)%float (-1)%float tie_observation); reflexivity.
Defined.

(** C1, as stated, fails: with two states whose candidates tie, the cell
    of state "A" at step 1 records "B", not the first achiever "A". *)
Lemma first_achiever_not_recorded :
  well_formed tie_states tie_initial tie_tables tie_tables = true
  /\ exists V,
       build_trellis tie_observation tie_states tie_initial tie_tables tie_tables
                     (-1)%float (-1)%float = Ok V
       /\ ~ backpointer_rule tie_states tie_tables (-1)%float head V.
Proof.
  split; [reflexivity|]. exists tie_trellis. split; [by vm_compute|].
  intros Hrule.
  destruct (Hrule 0 tie_row0 tie_row1 "A" (Cell (-4)%float (Some "B")))
    as (mx & [Hin _] & Hbp); [reflexivity|reflexivity|by left|reflexivity|].
  vm_compute in Hin.
  assert (mx = (-3)%float) as ->.
  { inversion Hin as [|? ? ? Hin']; [done|]. inversion Hin' as [|? ? ? Hin'']; [done|].
    inversion Hin''. }
  by vm_compute in Hbp.
Qed.

(** C4.  For a well-formed model (at least one state, all distinct) and
    an observation of length [n >= 1], the engine returns a trellis of [n]
    rows with one cell per state, in state order, [n * S] cells in all;
    every cell of a step [t >= 1] records one predecessor, a state of the
    model; and the backtracker returns [n] tags. *)
Theorem trellis_shape states initial emission transition uw us obs :
  well_formed states initial emission transition = true ->
  logprob uw -> logprob us -> obs <> [] ->
  exists V tags,
    build_trellis obs states initial emission transition uw us = Ok V
    /\ length V = length obs
    /\ Forall (fun r => dict_keys r = states /\ length r = length states) V
    /\ length (concat V) = length obs * length states
    /\ (forall t r s c, V !! S t = Some r -> dict_lookup s r = Some c ->
          exists p, BACKPOINTER c = Some p /\ p ∈ states)
    /\ backtrack_viterbi_matrix V = Ok (Some <$> tags)
    /\ length tags = length obs.
Proof.
  intros Hwf Huw Hus Hne.
  destruct (backtrack_ok states initial emission transition uw us Hwf Huw Hus obs Hne)
    as (r & s & path & _ & _ & _ & _ & Hback & Hlen & _).
  pose proof (trellis_good states initial emission transition uw us Hwf Huw Hus obs) as Hg.
  exists (trellis states initial emission transition uw us obs), (path ++ [s]).
  split; [by apply build_trellis_ok|].
  split; [apply trellis_length|].
  assert (Forall (fun r : row => dict_keys r = states /\ length r = length states)
            (trellis states initial emission transition uw us obs)) as Hshape.
  { eapply Forall_impl; [exact Hg|]. intros r' Hr'. split; [by destruct Hr'|].
    by apply good_row_length. }
  split; [done|]. split.
  { rewrite <- (trellis_length states initial emission transition uw us obs).
    apply concat_length_uniform. eapply Forall_impl; [exact Hshape|]. by intros ? [_ ?]. }
  split; [|done].
  intros t r' s' c Hr' Hc.
  assert (s' ∈ states) as Hs'.
  { rewrite Forall_forall in Hg.
    destruct (Hg r' (list_elem_of_lookup_2 _ _ _ Hr')) as [<- _].
    by eapply dict_lookup_keys. }
  destruct (lookup_lt_is_Some_2
              (trellis states initial emission transition uw us obs) t) as [prev Hprev].
  { apply lookup_lt_Some in Hr'. by apply Nat.lt_succ_l. }
  destruct (trellis_cell _ _ _ _ _ _ _ _ _ _ _ _ Hwf Huw Hus Hprev Hr' Hs' Hc)
    as (Hgp & o & _ & _ & ->).
  by eapply next_cell_backpointer.
Qed.

Lemma trellis_shape_witness :
  exists V tags,
    build_trellis ["dog"; "run"] scenario_states (scenario_initial log_ref)
      (scenario_emission log_ref) (scenario_transition log_ref)
      scenario_uw scenario_us = Ok V
    /\ length V = 2
    /\ Forall (fun r => dict_keys r = scenario_states /\ length r = 2) V
    /\ length (concat V) = 2 * 2
    /\ (forall t r s c, V !! S t = Some r -> dict_lookup s r = Some c ->
          exists p, BACKPOINTER c = Some p /\ p ∈ scenario_states)
    /\ backtrack_viterbi_matrix V = Ok (Some <$> tags)
    /\ length tags = 2.
Proof.
  apply (trellis_shape scenario_states (scenario_initial log_ref)
           (scenario_emission log_ref) (scenario_transition log_ref)
           scenario_uw scenario_us ["dog"; "run"]); [reflexivity..|done].
Defined.

Lemma best_state_matches states (r : row) mx s :
  head (best_states states r mx) = Some s ->
  s ∈ states /\ (prob_of r s =? mx)%float = true.
Proof.
  intros H%head_Some_elem_of. apply list_elem_of_In, filter_In in H as [H1 H2].
  split; [by apply list_elem_of_In|done].
Qed.

(** C3.  On the trellis the engine builds from a well-formed model (all
    stored values log-probabilities) and a non-empty observation, the
    backtracker succeeds: the maximum of the final row is found again in
    the cell of some state, [first_best] returns that state and not the
    sentinel, and every returned tag is a state of the model. *)
Theorem backtracker_cannot_fail states initial emission transition uw us obs V :
  well_formed states initial emission transition = true ->
  logprob uw -> logprob us ->
  build_trellis obs states initial emission transition uw us = Ok V ->
  exists (r : row) mx s c tags,
    last V = Some r
    /\ py_max (PROBABILITY <$> dict_values r) = Ok mx
    /\ dict_lookup s r = Some c /\ (PROBABILITY c =? mx)%float = true
    /\ first_best mx r = ([Some s], Some s)
    /\ backtrack_viterbi_matrix V = Ok (Some <$> tags)
    /\ Forall (fun q => q ∈ states) tags.
Proof.
  intros Hwf Huw Hus HV.
  destruct (build_trellis_inv _ _ _ _ _ _ _ _ Hwf Huw Hus HV) as [Hne ->].
  destruct (backtrack_ok states initial emission transition uw us Hwf Huw Hus obs Hne)
    as (r & s & path & Hlast & Hg & Hhead & Hfirst & Hback & _ & Hall).
  destruct (best_state_matches _ _ _ _ Hhead) as [Hs Hmatch].
  destruct (good_row_lookup states r s Hg Hs) as (c & Hc & Hpc & _).
  exists r, (fmax (prob_of r <$> states)), s, c, (path ++ [s]).
  split; [done|]. split; [by eapply good_row_max|].
  split; [done|]. split; [by rewrite Hpc|]. done.
Qed.

Lemma backtracker_cannot_fail_witness :
  exists (r : row) mx s c tags,
    last tie_trellis = Some r
    /\ py_max (PROBABILITY <$> dict_values r) = Ok mx
    /\ dict_lookup s r = Some c /\ (PROBABILITY c =? mx)%float = true
    /\ first_best mx r = ([Some s], Some s)
    /\ backtrack_viterbi_matrix tie_trellis = Ok (Some <$> tags)
    /\ Forall (fun q => q ∈ tie_states) tags.
Proof.
  apply (backtracker_cannot_fail tie_states tie_initial tie_tables tie_tables
           (-1)%float (-1)%float tie_observation tie_trellis);
    [reflexivity|reflexivity|reflexivity|by vm_compute].
Defined.

(** The hypothesis of C3 on the stored values is needed.  For a table that
    holds a NaN the final row has no cell equal to its maximum, the
    backtracker keeps the sentinel "RDM" and indexing [V[1]] with it
    raises [KeyError]. *)
Lemma nan_reaches_sentinel :
  well_formed nan_states nan_initial nan_emission nan_transition = false
  /\ exists V (r : row) mx,
       build_trellis ["x"; "y"] nan_states nan_initial nan_emission nan_transition
                     (-1)%float (-1)%float = Ok V
       /\ last V = Some r
       /\ py_max (PROBABILITY <$> dict_values r) = Ok mx
       /\ first_best mx r = ([], Some "RDM")
       /\ backtrack_viterbi_matrix V = Raise KeyError.
Proof.
  split; [reflexivity|].
  exists [[("A", Cell (-2)%float None)]; [("A", Cell nan (Some "A"))]],
         [("A", Cell nan (Some "A"))], nan.
  repeat split; by vm_compute.
Qed.

(** C8.  On the engine's trellis the backtracker ends the tag sequence
    with the first state, in the declared order, whose final-row
    probability equals the maximum of the final row. *)
Theorem final_state_is_first_best states initial emission transition uw us obs V :
  well_formed states initial emission transition = true ->
  logprob uw -> logprob us ->
  build_trellis obs states initial emission transition uw us = Ok V ->
  exists (r : row) mx s tags,
    last V = Some r /\ dict_keys r = states
    /\ is_max mx (PROBABILITY <$> dict_values r)
    /\ head (best_states states r mx) = Some s
    /\ backtrack_viterbi_matrix V = Ok tags
    /\ last tags = Some (Some s).
Proof.
  intros Hwf Huw Hus HV.
  destruct (build_trellis_inv _ _ _ _ _ _ _ _ Hwf Huw Hus HV) as [Hne ->].
  destruct (backtrack_ok states initial emission transition uw us Hwf Huw Hus obs Hne)
    as (r & s & path & Hlast & Hg & Hhead & _ & Hback & _ & _).
  exists r, (fmax (prob_of r <$> states)), s, (Some <$> (path ++ [s])).
  split; [done|]. split; [by destruct Hg|]. split.
  { rewrite (good_row_probs states initial emission transition Hwf r Hg).
    by eapply good_row_max. }
  split; [done|]. split; [done|].
  rewrite fmap_app. apply last_snoc.
Qed.

Lemma final_state_is_first_best_witness :
  exists (r : row) mx s tags,
    last tie_trellis = Some r /\ dict_keys r = tie_states
    /\ is_max mx (PROBABILITY <$> dict_values r)
    /\ head (best_states tie_states r mx) = Some s
    /\ backtrack_viterbi_matrix tie_trellis = Ok tags
    /\ last tags = Some (Some s).
Proof.
  apply (final_state_is_first_best tie_states tie_initial tie_tables tie_tables
           (-1)%float (-1)%float tie_observation tie_trellis);
    [reflexivity|reflexivity|reflexivity|by vm_compute].
Defined.

(** C7.  For a single token the trellis is the initial row alone (the
    extension loop runs over an empty range), and the output tag is the
    first state, in the declared order, whose score
    [initial[s] + emission[s].get(token, unknown_word_prob)] equals the
    maximum score. *)
Theorem single_token_argmax libm_log distinct_word_count states
    initial emission transition uw us token :
  well_formed states initial emission transition = true ->
  smoothing_ok libm_log distinct_word_count states uw us ->
  let score := fun s => (init_of initial s + emit_of emission uw s token)%float in
  exists mx s,
    is_max mx (score <$> states)
    /\ head (List.filter (fun s => (score s =? mx)%float) states) = Some s
    /\ viterbi libm_log [token] distinct_word_count states initial emission transition
       = Ok (pair_text token s)
    /\ build_trellis [token] states initial emission transition uw us
       = (V0 ← foldM (init_cell [token] initial emission uw) states []; Ok [V0]).
Proof.
  intros Hwf Hsm score.
  destruct (viterbi_ok libm_log distinct_word_count states initial emission
              transition uw us Hwf Hsm [token]) as (r & s & path & Hlast & Hhead & Hlen & _ & Hout);
    [done|].
  destruct Hsm as (_ & _ & Huw & Hus).
  simpl in Hlast. injection Hlast as <-.
  assert (path = []) as ->.
  { rewrite length_app in Hlen. simpl in Hlen. destruct path; [done|simpl in Hlen; lia]. }
  assert (forall s', s' ∈ states ->
            prob_of (first_row states initial emission uw token) s' = score s') as Hscore.
  { intros s' Hs'. unfold first_row. by rewrite prob_of_fmap. }
  assert (prob_of (first_row states initial emission uw token) <$> states
          = score <$> states) as Hscores.
  { apply list_fmap_ext. intros i s' Hs'. apply Hscore.
    by eapply list_elem_of_lookup_2. }
  exists (fmax (score <$> states)), s. split.
  { rewrite <- Hscores.
    eapply good_row_max; [exact Hwf|]. by eapply first_row_good. }
  split; [|split; [exact Hout|done]].
  rewrite <- Hhead, Hscores. unfold best_states. f_equal. apply filter_ext_in.
  intros s' Hs'%list_elem_of_In. by rewrite Hscore.
Qed.

Lemma single_token_argmax_witness :
  let score := fun s => (init_of (scenario_initial log_ref) s
                         + emit_of (scenario_emission log_ref) scenario_uw s "run")%float in
  exists mx s,
    is_max mx (score <$> scenario_states)
    /\ head (List.filter (fun s => (score s =? mx)%float) scenario_states) = Some s
    /\ viterbi log_ref ["run"] 10 scenario_states (scenario_initial log_ref)
         (scenario_emission log_ref) (scenario_transition log_ref)
       = Ok (pair_text "run" s)
    /\ build_trellis ["run"] scenario_states (scenario_initial log_ref)
         (scenario_emission log_ref) (scenario_transition log_ref)
         scenario_uw scenario_us
       = (V0 ← foldM (init_cell ["run"] (scenario_initial log_ref)
                        (scenario_emission log_ref) scenario_uw)
                     scenario_states [];
          Ok [V0]).
Proof.
  apply (single_token_argmax log_ref 10 scenario_states (scenario_initial log_ref)
           (scenario_emission log_ref) (scenario_transition log_ref)
           scenario_uw scenario_us "run"); [reflexivity|].
  repeat split; reflexivity.
Defined.

(** ** Lines of the test file *)



Lemma split_nonempty sep s : split sep s <> [].
Proof.
  destruct s as [|c s]; simpl; [done|].
  destruct (Ascii.eqb c sep); [done|]. by destruct (split sep s).
Qed.

Lemma observation_nonempty line : observation_of_line line <> [].
Proof. apply split_nonempty. Qed.


(** ** The smoothing fallbacks *)

Lemma foldM_ext_in {A B} (f g : B -> A -> result B) (l : list A) acc :
  (forall x a, x ∈ l -> f a x = g a x) -> foldM f l acc = foldM g l acc.
Proof.
  revert acc; induction l as [|y l IH]; intros acc H; [done|].
  rewrite !foldM_cons, (H y acc) by left.
  destruct (g acc y) as [acc'|e]; [|done]. simpl.
  apply IH. intros x a Hx. apply H. by right.
Qed.

Lemma mapM_ext_in {A B} (f g : A -> result B) (l : list A) :
  (forall x, x ∈ l -> f x = g x) -> mapM f l = mapM g l.
Proof.
  induction l as [|y l IH]; intros H; [done|]. simpl.
  rewrite (H y) by left. rewrite IH; [done|].
  intros x Hx. apply H. by right.
Qed.


Lemma positive_not_nan x : (0 <? x)%float = true -> is_nan x = false.
Proof.
  intros H. unfold is_nan. rewrite FloatAxioms.ltb_spec in H.
  assert (Prim2SF x <> S754_nan) as Hx.
  { intros E. rewrite E in H. by destruct (Prim2SF 0). }
  apply number_not_nan in Hx. unfold number in Hx. by rewrite Hx.
Qed.

Lemma fallback_computed libm_log count :
  fallback_defined libm_log count ->
  unknown_prob libm_log count = Ok (unknown_log_prob libm_log count).
Proof.
  intros (Hne & Hpos & _). unfold unknown_prob, one_over.
  destruct (Z.eqb_spec count 0); [done|]. simpl. unfold math_log.
  by rewrite (positive_not_nan _ Hpos), Hpos.
Qed.

Lemma fallbacks_smoothing_ok libm_log distinct_word_count states :
  fallback_defined libm_log distinct_word_count ->
  fallback_defined libm_log (Z.of_nat (length states)) ->
  smoothing_ok libm_log distinct_word_count states
    (unknown_log_prob libm_log distinct_word_count)
    (unknown_log_prob libm_log (Z.of_nat (length states))).
Proof.
  intros Hw Hs. split; [by apply fallback_computed|].
  split; [by apply fallback_computed|].
  split; [by destruct Hw as (_ & _ & ?)|by destruct Hs as (_ & _ & ?)].
Qed.

(** A lookup with default [d] cannot tell the completed table from the
    table, and the completed table has an entry for every key it was
    completed over. *)
Lemma with_fallback_get d keys tbl k :
  tbl_get (with_fallback d keys tbl) k d = tbl_get tbl k d.
Proof.
  induction keys as [|k0 keys IH]; simpl; [done|].
  destruct (with_fallback d keys tbl !! k0) eqn:E; [done|].
  unfold tbl_get in *. destruct (decide (k = k0)) as [->|Hne].
  - rewrite lookup_insert_eq. simpl. rewrite <- IH, E. done.
  - by rewrite lookup_insert_ne.
Qed.

Lemma with_fallback_lookup d keys tbl k :
  k ∈ keys -> with_fallback d keys tbl !! k = Some (tbl_get tbl k d).
Proof.
  intros Hk. pose proof (with_fallback_get d keys tbl k) as Hget.
  assert (is_Some (with_fallback d keys tbl !! k)) as [x Hx].
  { clear Hget. induction keys as [|k0 keys IH]; [by apply elem_of_nil in Hk|].
    simpl. destruct (with_fallback d keys tbl !! k0) eqn:E.
    - apply elem_of_cons in Hk as [->|Hk]; [by rewrite E|by apply IH].
    - destruct (decide (k = k0)) as [->|Hne]; [by rewrite lookup_insert_eq|].
      rewrite lookup_insert_ne by done.
      apply elem_of_cons in Hk as [->|Hk]; [done|by apply IH]. }
  rewrite Hx. f_equal. rewrite <- Hget. unfold tbl_get. by rewrite Hx.
Qed.

Lemma transition_score_completed transition us keys V t s p :
  transition_score (with_fallback us keys <$> transition) us V t s p
  = transition_score transition us V t s p.
Proof.
  unfold transition_score.
  destruct (list_getitem V (t - 1)) as [r|]; [|done]. simpl.
  destruct (dict_getitem r p) as [c|]; [|done]. simpl.
  unfold tbl_getitem. rewrite lookup_fmap.
  destruct (transition !! p) as [tr|]; [|done]. simpl.
  by rewrite with_fallback_get.
Qed.

(** The engine cannot tell a model from the model whose inner tables are
    completed with the two fallbacks, for any model and any keys, errors
    included. *)
Lemma build_trellis_completed obs states initial emission transition uw us ks1 ks2 :
  build_trellis obs states initial (with_fallback uw ks1 <$> emission)
                (with_fallback us ks2 <$> transition) uw us
  = build_trellis obs states initial emission transition uw us.
Proof.
  unfold build_trellis.
  assert (foldM (init_cell obs initial (with_fallback uw ks1 <$> emission) uw) states []
          = foldM (init_cell obs initial emission uw) states []) as ->.
  { apply foldM_ext_in. intros s acc _. unfold init_cell.
    destruct (tbl_getitem initial s) as [i|]; [|done]. simpl.
    unfold tbl_getitem. rewrite lookup_fmap.
    destruct (emission !! s) as [e|]; [|done]. simpl.
    destruct (list_getitem obs 0) as [o|]; [|done]. simpl.
    by rewrite with_fallback_get. }
  destruct (foldM (init_cell obs initial emission uw) states []) as [V0|]; [|done].
  simpl. apply foldM_ext_in. intros t V _. unfold extend_trellis. f_equal.
  apply foldM_ext_in. intros s acc _. unfold fill_cell.
  rewrite (mapM_ext_in _ (transition_score transition us V t s))
    by (intros p _; apply transition_score_completed).
  destruct (mapM (transition_score transition us V t s) states) as [probs|]; [|done].
  simpl. destruct (py_max probs) as [mx|]; [|done]. simpl.
  unfold tbl_getitem. rewrite lookup_fmap.
  destruct (emission !! s) as [e|]; [|done]. simpl.
  destruct (list_getitem obs t) as [o|]; [|done]. simpl.
  rewrite with_fallback_get.
  apply foldM_ext_in. intros p acc' _. unfold record_backpointer.
  by rewrite transition_score_completed.
Qed.

(** C6.  The two fallbacks of a decode are [log((1/V) * K)] and
    [log((1/S) * K)], one value each for the whole decode.  For a
    well-formed model whose two fallbacks are defined, the decode of a
    non-empty observation returns, whichever pairs the inner tables lack:
    its output pairs every token with the tag that backtracking finds in
    the trellis scored with exactly these two constants; and it is the
    output of the decode of the completed model, in which every missing
    emission entry of a token holds the first constant and every missing
    transition entry of a state holds the second. *)
Theorem smoothing_fallbacks libm_log distinct_word_count states
    initial emission transition obs :
  let uw := unknown_log_prob libm_log distinct_word_count in
  let us := unknown_log_prob libm_log (Z.of_nat (length states)) in
  well_formed states initial emission transition = true ->
  fallback_defined libm_log distinct_word_count ->
  fallback_defined libm_log (Z.of_nat (length states)) ->
  obs <> [] ->
  exists tags,
    length tags = length obs
    /\ Forall (fun q => q ∈ states) tags
    /\ build_trellis obs states initial emission transition uw us
       = Ok (trellis states initial emission transition uw us obs)
    /\ backtrack_viterbi_matrix (trellis states initial emission transition uw us obs)
       = Ok (Some <$> tags)
    /\ viterbi libm_log obs distinct_word_count states initial emission transition
       = Ok (join_space (zip_with pair_text obs tags))
    /\ viterbi libm_log obs distinct_word_count states initial
         (with_fallback uw obs <$> emission) (with_fallback us states <$> transition)
       = Ok (join_space (zip_with pair_text obs tags)).
Proof.
  intros uw us Hwf HV HS Hne.
  pose proof (fallbacks_smoothing_ok libm_log distinct_word_count states HV HS) as Hsm.
  fold uw us in Hsm. pose proof Hsm as (Hw & Hs & Huw & Hus).
  destruct (backtrack_ok states initial emission transition uw us Hwf Huw Hus obs Hne)
    as (r & s & path & _ & _ & _ & _ & Hback & Hlen & Hall).
  pose proof (build_trellis_ok states initial emission transition uw us
                Hwf Huw Hus obs Hne) as Hbuild.
  assert (viterbi libm_log obs distinct_word_count states initial emission transition
          = Ok (join_space (zip_with pair_text obs (path ++ [s])))) as Hout.
  { rewrite (viterbi_unfold libm_log distinct_word_count states initial emission
               transition uw us Hsm), Hbuild.
    simpl. rewrite Hback. simpl. by apply format_output_ok. }
  exists (path ++ [s]). do 5 (split; [done|]).
  rewrite <- Hout. unfold viterbi. rewrite Hw, Hs. simpl.
  by rewrite build_trellis_completed.
Qed.

Lemma smoothing_fallbacks_witness :
  let uw := unknown_log_prob log_ref 10 in
  let us := unknown_log_prob log_ref (Z.of_nat (length scenario_states)) in
  exists tags,
    length tags = length ["cat"; "run"]
    /\ Forall (fun q => q ∈ scenario_states) tags
    /\ build_trellis ["cat"; "run"] scenario_states (scenario_initial log_ref)
         (scenario_emission log_ref) (scenario_transition log_ref) uw us
       = Ok (trellis scenario_states (scenario_initial log_ref)
               (scenario_emission log_ref) (scenario_transition log_ref)
               uw us ["cat"; "run"])
    /\ backtrack_viterbi_matrix
         (trellis scenario_states (scenario_initial log_ref)
            (scenario_emission log_ref) (scenario_transition log_ref)
            uw us ["cat"; "run"])
       = Ok (Some <$> tags)
    /\ viterbi log_ref ["cat"; "run"] 10 scenario_states (scenario_initial log_ref)
         (scenario_emission log_ref) (scenario_transition log_ref)
       = Ok (join_space (zip_with pair_text ["cat"; "run"] tags))
    /\ viterbi log_ref ["cat"; "run"] 10 scenario_states (scenario_initial log_ref)
         (with_fallback uw ["cat"; "run"] <$> scenario_emission log_ref)
         (with_fallback us scenario_states <$> scenario_transition log_ref)
       = Ok (join_space (zip_with pair_text ["cat"; "run"] tags)).
Proof.
  apply (smoothing_fallbacks log_ref 10 scenario_states (scenario_initial log_ref)
           (scenario_emission log_ref) (scenario_transition log_ref) ["cat"; "run"]);
    [reflexivity| | |done].
  - split; [done|]. split; reflexivity.
  - split; [done|]. split; reflexivity.
Defined.






(** * Further properties of the tagger *)

(** ** What a successful loop implies *)

Lemma foldM_Ok_each {A B} (body : B -> A -> result B) (l : list A) acc r :
  foldM body l acc = Ok r ->
  forall x, x ∈ l -> exists a b, body a x = Ok b.
Proof.
  revert acc; induction l as [|y l IH]; intros acc H x Hx.
  - by apply elem_of_nil in Hx.
  - rewrite foldM_cons in H.
    destruct (body acc y) as [acc'|e] eqn:Ey; [|done]. simpl in H.
    apply elem_of_cons in Hx as [->|Hx]; [by exists acc, acc'|].
    by apply (IH acc').
Qed.

Lemma mapM_Ok_Forall2 {A B} (f : A -> result B) (l : list A) (k : list B) :
  mapM f l = Ok k <-> Forall2 (fun x y => f x = Ok y) l k.
Proof.
  revert k; induction l as [|x l IH]; intros k; simpl.
  - split; [intros [= <-]; constructor|by inversion 1].
  - split.
    + destruct (f x) as [y|e] eqn:Ef; simpl; [|done].
      destruct (mapM f l) as [k'|e] eqn:Em; simpl; [|done].
      intros [= <-]. constructor; [done|]. by apply IH.
    + inversion 1 as [|? y ? k' Hy Hk]; subst.
      rewrite Hy. simpl. apply IH in Hk. by rewrite Hk.
Qed.

Lemma mapM_Raise {A B} (f : A -> result B) (l : list A) e :
  mapM f l = Raise e <->
  exists pre x post,
    l = pre ++ x :: post
    /\ Forall (fun y => exists z, f y = Ok z) pre
    /\ f x = Raise e.
Proof.
  induction l as [|x l IH]; simpl.
  - split; [done|]. intros (pre & y & post & H & _). by destruct pre.
  - split.
    + destruct (f x) as [y|e'] eqn:Ef; simpl.
      * destruct (mapM f l) as [k'|e'] eqn:Em; simpl; [done|].
        intros [= ->]. destruct (proj1 IH eq_refl) as (pre & z & post & -> & Hpre & Hz).
        exists (x :: pre), z, post. split; [done|]. split; [|done].
        constructor; [by exists y|done].
      * intros [= ->]. exists [], x, l. by repeat split.
    + intros (pre & z & post & Hl & Hpre & Hz). destruct pre as [|p pre]; simpl in Hl.
      * injection Hl as -> ->. by rewrite Hz.
      * injection Hl as -> ->. apply Forall_cons in Hpre as [[y Hy] Hpre].
        rewrite Hy. simpl.
        assert (mapM f (pre ++ z :: post) = Raise e) as ->; [|done].
        apply IH. by exists pre, z, post.
Qed.

Lemma Some_prefix {A} (l : list (option A)) n :
  (forall i, i < n -> exists t, l !! i = Some (Some t)) ->
  exists ts, length ts = n /\ take n l = Some <$> ts.
Proof.
  revert l; induction n as [|n IH]; intros l H.
  - by exists [].
  - destruct (H 0) as [t Ht]; [lia|]. destruct l as [|x l]; [done|].
    simpl in Ht. injection Ht as ->.
    destruct (IH l) as (ts & Hlen & Hts).
    { intros i Hi. apply (H (S i)). lia. }
    exists (t :: ts). simpl. by rewrite Hlen, Hts.
Qed.

(** The output loop reads [tags[i]] for [i < len(observation)] only. *)
Lemma format_output_take obs tags :
  format_output obs tags = format_output obs (take (length obs) tags).
Proof.
  unfold format_output. f_equal. apply foldM_ext_in.
  intros i out Hi. apply list_elem_of_In, in_seq in Hi.
  unfold append_pair. destruct (list_getitem obs i); [|done]. simpl.
  unfold list_getitem. rewrite lookup_take_lt by lia. done.
Qed.


Lemma unknown_prob_Ok_nonzero libm_log count u :
  unknown_prob libm_log count = Ok u -> count <> 0%Z.
Proof.
  unfold unknown_prob, one_over. by destruct (Z.eqb_spec count 0).
Qed.

Lemma init_cell_Ok_entries obs initial emission uw acc s r :
  init_cell obs initial emission uw acc s = Ok r ->
  is_Some (initial !! s) /\ is_Some (emission !! s).
Proof.
  unfold init_cell, tbl_getitem.
  destruct (initial !! s); [|done]. destruct (emission !! s); [|done].
  by split.
Qed.

Lemma transition_score_Ok_entry transition us V t s p x :
  transition_score transition us V t s p = Ok x -> is_Some (transition !! p).
Proof.
  unfold transition_score.
  destruct (list_getitem V (t - 1)) as [r|]; [|done]. simpl.
  destruct (dict_getitem r p); [|done]. simpl.
  unfold tbl_getitem. by destruct (transition !! p).
Qed.

(** X2.  [viterbi] returns only for a usable model and input: the
    vocabulary size is not zero, there is at least one state and one token,
    every state has its entry in the initial and the emission table, and,
    as soon as the observation has a second token, in the transition table
    too.  In every other case the call raises. *)
Theorem viterbi_returns_only_if libm_log obs distinct_word_count states
    initial emission transition out :
  viterbi libm_log obs distinct_word_count states initial emission transition
  = Ok out ->
  distinct_word_count <> 0%Z /\ states <> [] /\ obs <> []
  /\ (forall s, s ∈ states -> is_Some (initial !! s) /\ is_Some (emission !! s))
  /\ (2 <= length obs -> forall s, s ∈ states -> is_Some (transition !! s)).
Proof.
  unfold viterbi. intros H.
  destruct (unknown_prob libm_log distinct_word_count) as [uw|] eqn:Ew; [|done].
  destruct (unknown_prob libm_log (Z.of_nat (length states))) as [us|] eqn:Es;
    [|done].
  simpl in H.
  destruct (build_trellis obs states initial emission transition uw us)
    as [V|] eqn:EV; [|done].
  clear H. split; [by eapply unknown_prob_Ok_nonzero|].
  assert (states <> []) as Hst.
  { apply unknown_prob_Ok_nonzero in Es. by destruct states. }
  split; [done|]. split.
  { intros ->. destruct (build_trellis_empty states initial emission transition
                           uw us Hst) as [e He]. congruence. }
  unfold build_trellis in EV.
  destruct (foldM (init_cell obs initial emission uw) states []) as [V0|] eqn:E0;
    [|done].
  simpl in EV. split.
  { intros s Hs. destruct (foldM_Ok_each _ _ _ _ E0 s Hs) as (a & b & Hab).
    by eapply init_cell_Ok_entries. }
  intros Hlen p Hp.
  destruct obs as [|o [|o' rest]]; [simpl in Hlen; lia..|].
  simpl in EV.
  destruct (extend_trellis (o :: o' :: rest) states emission transition uw us [V0] 1)
    as [V1|] eqn:E1; [|done].
  unfold extend_trellis in E1.
  destruct (foldM (fill_cell (o :: o' :: rest) states emission transition uw us
                     [V0] 1) states []) as [Vt|] eqn:Ef; [|done].
  destruct states as [|s1 l]; [done|].
  rewrite foldM_cons in Ef.
  destruct (fill_cell (o :: o' :: rest) (s1 :: l) emission transition uw us [V0] 1 [] s1)
    as [r1|] eqn:Ec; [|done].
  unfold fill_cell in Ec.
  destruct (mapM (transition_score transition us [V0] 1 s1) (s1 :: l))
    as [probs|] eqn:Em; [|done].
  destruct (mapM_Ok_lookup _ _ _ Em) as [_ Hlk].
  apply list_elem_of_lookup in Hp as [i Hi].
  destruct (Hlk i p Hi) as (x & _ & Hx).
  by eapply transition_score_Ok_entry.
Qed.

Lemma viterbi_returns_only_if_witness :
  10%Z <> 0%Z /\ scenario_states <> [] /\ ["dog"; "run"] <> []
  /\ (forall s, s ∈ scenario_states ->
        is_Some (scenario_initial log_ref !! s)
        /\ is_Some (scenario_emission log_ref !! s))
  /\ (2 <= length ["dog"; "run"] -> forall s, s ∈ scenario_states ->
        is_Some (scenario_transition log_ref !! s)).
Proof.
  apply (viterbi_returns_only_if log_ref ["dog"; "run"] 10 scenario_states
           (scenario_initial log_ref) (scenario_emission log_ref)
           (scenario_transition log_ref) "dog/N run/V").
  by vm_compute.
Defined.

(** X3.  The decoding loop is all or nothing, in the order of the lines:
    [tag_sentence] raises [e] exactly when some line's decode raises [e]
    and every line before it decodes; the lines after it are not looked
    at, and no result list is produced. *)
Theorem tag_sentence_first_failure libm_log test_lines m e :
  tag_sentence libm_log test_lines m = Raise e <->
  exists before line after,
    test_lines = before ++ line :: after
    /\ Forall (fun l => exists out,
                 viterbi libm_log (observation_of_line l) (vocabulary_len m)
                   (states m) (initial_state_probability m)
                   (emission_probability m) (transition_probability m)
                 = Ok out) before
    /\ viterbi libm_log (observation_of_line line) (vocabulary_len m)
         (states m) (initial_state_probability m)
         (emission_probability m) (transition_probability m)
       = Raise e.
Proof. unfold tag_sentence. apply mapM_Raise. Qed.

(** X4.  Whatever the model, [tag_sentence] returns [outs] exactly when
    [outs] holds, line for line and in the same order, the decode of every
    input line. *)
Theorem tag_sentence_returns_iff libm_log test_lines m outs :
  tag_sentence libm_log test_lines m = Ok outs <->
  Forall2 (fun line out =>
             viterbi libm_log (observation_of_line line) (vocabulary_len m)
               (states m) (initial_state_probability m)
               (emission_probability m) (transition_probability m)
             = Ok out) test_lines outs.
Proof. unfold tag_sentence. apply mapM_Ok_Forall2. Qed.

(** ** The scores of the trellis *)

(** X5.  For a well-formed model every probability the engine stores in
    the trellis is a log-probability: at most zero and never NaN, however
    long the observation and however small the scores become (a sum that
    underflows the binary64 range stays at minus infinity). *)
Theorem trellis_scores_are_logprobs states initial emission transition uw us obs V
    t (r : row) s c :
  well_formed states initial emission transition = true ->
  logprob uw -> logprob us ->
  build_trellis obs states initial emission transition uw us = Ok V ->
  V !! t = Some r -> dict_lookup s r = Some c -> logprob (PROBABILITY c).
Proof.
  intros Hwf Huw Hus HV Hr Hc.
  destruct (build_trellis_inv _ _ _ _ _ _ _ _ Hwf Huw Hus HV) as [_ ->].
  pose proof (trellis_good states initial emission transition uw us Hwf Huw Hus obs) as Hg.
  rewrite Forall_forall in Hg.
  destruct (Hg r (list_elem_of_lookup_2 _ _ _ Hr)) as [Hk Hl].
  rewrite Forall_forall in Hl.
  assert (s ∈ states) as Hs by (rewrite <- Hk; by eapply dict_lookup_keys).
  specialize (Hl s Hs). unfold prob_of in Hl. by rewrite Hc in Hl.
Qed.

Lemma trellis_scores_are_logprobs_witness :
  logprob (PROBABILITY (Cell (-4)%float (Some "B"))).
Proof.
  apply (trellis_scores_are_logprobs tie_states tie_initial tie_tables tie_tables
           (-1)%float (-1)%float tie_observation tie_trellis
           1 tie_row1 "A" (Cell (-4)%float (Some "B")));
    [reflexivity|reflexivity|reflexivity|by vm_compute|reflexivity|reflexivity].
Defined.

(** X6.  The first row of the trellis: for a well-formed model the cell
    of every state at step 0 holds
    [initial[s] + emission[s].get(observation[0], unknown_word_prob)] and no
    backpointer. *)
Theorem initial_row states initial emission transition uw us o rest V s i e :
  well_formed states initial emission transition = true ->
  logprob uw -> logprob us ->
  build_trellis (o :: rest) states initial emission transition uw us = Ok V ->
  s ∈ states -> initial !! s = Some i -> emission !! s = Some e ->
  exists r : row,
    V !! 0 = Some r /\ dict_keys r = states
    /\ dict_lookup s r = Some (Cell (i + tbl_get e o uw)%float None).
Proof.
  intros Hwf Huw Hus HV Hs Hi He.
  rewrite build_trellis_ok in HV by done. injection HV as <-.
  exists (first_row states initial emission uw o).
  split; [done|]. split; [apply dict_keys_fmap|].
  unfold first_row. rewrite dict_lookup_fmap by done.
  unfold first_cell, init_of, emit_of. by rewrite Hi, He.
Qed.

Lemma initial_row_witness :
  exists r : row,
    tie_trellis !! 0 = Some r /\ dict_keys r = tie_states
    /\ dict_lookup "B" r = Some (Cell (-1 + tbl_get ∅ "x" (-1))%float None).
Proof.
  apply (initial_row tie_states tie_initial tie_tables tie_tables
           (-1)%float (-1)%float "x" ["y"] tie_trellis "B" (-1)%float ∅);
    [reflexivity|reflexivity|reflexivity|by vm_compute|by right; left
    |reflexivity|reflexivity].
Defined.

(** X7.  The Viterbi recurrence: for a well-formed model the cell of
    state [s] at step [t+1] exists and its probability is the maximum, over
    the predecessors [p], of [cell(t,p).prob + transition[p].get(s, ...)],
    plus [emission[s].get(observation[t+1], unknown_word_prob)]. *)
Theorem viterbi_recurrence states initial emission transition uw us obs V
    t (prev r : row) o s e :
  well_formed states initial emission transition = true ->
  logprob uw -> logprob us ->
  build_trellis obs states initial emission transition uw us = Ok V ->
  V !! t = Some prev -> V !! S t = Some r -> obs !! S t = Some o ->
  s ∈ states -> emission !! s = Some e ->
  exists c mx,
    dict_lookup s r = Some c
    /\ is_max mx (candidates states transition us prev s)
    /\ PROBABILITY c = (mx + tbl_get e o uw)%float.
Proof.
  intros Hwf Huw Hus HV Hprev Hr Ho Hs He.
  destruct (build_trellis_inv _ _ _ _ _ _ _ _ Hwf Huw Hus HV) as [_ ->].
  destruct (trellis_step states initial emission transition uw us obs t o Ho)
    as (r0 & Hr0 & Hnext).
  rewrite Hprev in Hr0. injection Hr0 as <-.
  rewrite Hr in Hnext. injection Hnext as ->.
  exists (next_cell states emission transition uw us prev o s),
         (fmax (candidates states transition us prev s)).
  split; [unfold next_row; by rewrite dict_lookup_fmap|].
  split.
  - eapply candidates_max; try done.
    pose proof (trellis_good states initial emission transition uw us Hwf Huw Hus obs) as Hg.
    rewrite Forall_forall in Hg. apply Hg. by eapply list_elem_of_lookup_2.
  - simpl. unfold emit_of. by rewrite He.
Qed.

Lemma viterbi_recurrence_witness :
  exists c mx,
    dict_lookup "A" tie_row1 = Some c
    /\ is_max mx (candidates tie_states tie_tables (-1)%float tie_row0 "A")
    /\ PROBABILITY c = (mx + tbl_get ∅ "y" (-1))%float.
Proof.
  apply (viterbi_recurrence tie_states tie_initial tie_tables tie_tables
           (-1)%float (-1)%float tie_observation tie_trellis 0 tie_row0 tie_row1
           "y" "A" ∅);
    [reflexivity|reflexivity|reflexivity|by vm_compute|reflexivity|reflexivity
    |reflexivity|by left|reflexivity].
Defined.

(** ** The backtracker on any trellis *)

Lemma rev_seq_S k : rev (seq 0 (S k)) = k :: rev (seq 0 k).
Proof. by rewrite seq_S, rev_app_distr. Qed.

(** The walk of lines 69-72 from step [k] down to step 1: what it appends
    is, read backwards, a chain of stored backpointers. *)
Lemma backtrack_walk V k :
  forall tags pre acc,
    foldM (backtrack_step V) (rev (seq 0 k)) (tags, pre) = Ok acc ->
    exists path : list (option string),
      length path = k /\ acc.1 = tags ++ rev path
      /\ forall t x, t < k -> (path ++ [pre]) !! S t = Some x ->
           exists key (r : row) c,
             x = Some key /\ V !! S t = Some r /\ dict_lookup key r = Some c
             /\ (path ++ [pre]) !! t = Some (BACKPOINTER c).
Proof.
  induction k as [|k IH]; intros tags pre acc H.
  - injection H as <-. exists []. simpl. rewrite app_nil_r.
    do 2 (split; [done|]). intros t x Ht. lia.
  - rewrite rev_seq_S, foldM_cons in H.
    destruct (backtrack_step V (tags, pre) k) as [[tags1 x1]|] eqn:Estep; [|done].
    simpl in H. unfold backtrack_step, list_getitem in Estep.
    replace (k + 1) with (S k) in Estep by lia.
    destruct (V !! S k) as [r|] eqn:Er; [|done]. simpl in Estep.
    destruct pre as [s|]; [|done].
    unfold dict_getitem in Estep.
    destruct (dict_lookup s r) as [c|] eqn:Ec; [|done].
    simpl in Estep. injection Estep as <- <-.
    destruct (IH _ _ _ H) as (path & Hlen & Hacc & Hchain).
    exists (path ++ [BACKPOINTER c]). split; [rewrite length_app; simpl; lia|].
    split; [by rewrite Hacc, rev_app_distr, <- app_assoc|].
    intros t x Ht Hx. rewrite <- app_assoc in Hx |- *. simpl in Hx |- *.
    destruct (decide (t = k)) as [->|Hne].
    + rewrite lookup_app_r in Hx by (rewrite Hlen; lia).
      replace (S k - length path) with 1 in Hx by lia.
      simpl in Hx. injection Hx as <-.
      exists s, r, c. do 3 (split; [done|]).
      rewrite lookup_app_r by (rewrite Hlen; lia).
      by replace (k - length path) with 0 by lia.
    + assert (t < k) as Hlt by lia.
      assert (forall i, i <= k ->
                (path ++ [BACKPOINTER c; Some s]) !! i
                = (path ++ [BACKPOINTER c]) !! i) as Hsame.
      { intros i Hi. destruct (decide (i < k)) as [Hik|Hik].
        - by rewrite !lookup_app_l by lia.
        - rewrite !lookup_app_r by lia.
          by replace (i - length path) with 0 by lia. }
      rewrite Hsame in Hx |- * by lia.
      by apply Hchain.
Qed.

Lemma backtrack_chain V (r : row) mx s c0 tags :
  last V = Some r ->
  py_max (PROBABILITY <$> dict_values r) = Ok mx ->
  List.find (fun kv => (PROBABILITY kv.2 =? mx)%float) r = Some (s, c0) ->
  backtrack_viterbi_matrix V = Ok tags ->
  length tags = length V
  /\ last tags = Some (Some s)
  /\ forall t x, tags !! S t = Some x ->
       exists key (r' : row) c,
         x = Some key /\ V !! S t = Some r' /\ dict_lookup key r' = Some c
         /\ tags !! t = Some (BACKPOINTER c).
Proof.
  intros Hlast Hmx Hfind H.
  unfold backtrack_viterbi_matrix, list_getlast in H.
  rewrite Hlast in H. simpl in H. rewrite Hmx in H. simpl in H.
  unfold first_best in H. rewrite Hfind in H.
  destruct (foldM (backtrack_step V) (rev (seq 0 (length V - 1))) ([Some s], Some s))
    as [acc|] eqn:Eacc; [|done].
  simpl in H. injection H as <-.
  destruct (backtrack_walk V _ _ _ _ Eacc) as (path & Hlen & Hacc & Hchain).
  assert (rev acc.1 = path ++ [Some s]) as ->.
  { rewrite Hacc, rev_app_distr, rev_involutive. done. }
  assert (length V <> 0) as HV by (destruct V; [done|simpl; lia]).
  split; [rewrite length_app, Hlen; simpl; lia|].
  split; [apply last_snoc|].
  intros t x Hx. apply Hchain; [|done].
  apply lookup_lt_Some in Hx. rewrite length_app, Hlen in Hx. simpl in Hx. lia.
Qed.

(** X8.  On any trellis, whatever built it: when some cell of the final
    row equals the maximum of that row and the backtracker returns, it
    returns one tag per step; the last tag is the first state of the final
    row whose probability equals the maximum, and every tag before is the
    backpointer stored, one step later, in the cell of the tag that
    follows it. *)
Theorem backtrack_follows_backpointers V (r : row) mx s c0 tags :
  last V = Some r ->
  py_max (PROBABILITY <$> dict_values r) = Ok mx ->
  List.find (fun kv => (PROBABILITY kv.2 =? mx)%float) r = Some (s, c0) ->
  backtrack_viterbi_matrix V = Ok tags ->
  length tags = length V
  /\ last tags = Some (Some s)
  /\ forall t x, tags !! S t = Some x ->
       exists key (r' : row) c,
         x = Some key /\ V !! S t = Some r' /\ dict_lookup key r' = Some c
         /\ tags !! t = Some (BACKPOINTER c).
Proof. apply backtrack_chain. Qed.

Lemma backtrack_follows_backpointers_witness :
  length [Some "B"; Some "A"] = length tie_trellis
  /\ last [Some "B"; Some "A"] = Some (Some "A")
  /\ forall t x, [Some "B"; Some "A"] !! S t = Some x ->
       exists key (r' : row) c,
         x = Some key /\ tie_trellis !! S t = Some r'
         /\ dict_lookup key r' = Some c
         /\ [Some "B"; Some "A"] !! t = Some (BACKPOINTER c).
Proof.
  apply (backtrack_follows_backpointers tie_trellis tie_row1 (-4)%float "A"
           (Cell (-4)%float (Some "B")) [Some "B"; Some "A"]); by vm_compute.
Defined.

(** X9.  For a well-formed model the decoded tag sequence is a chain of
    best predecessors: it has one tag per token, follows the stored
    backpointers, and for two consecutive tags [p], [s] at steps [t],
    [t+1] the candidate score of [p] for [s] equals the maximum candidate
    of [s]. *)
Theorem decoded_path_is_best_chain states initial emission transition uw us obs V :
  well_formed states initial emission transition = true ->
  logprob uw -> logprob us ->
  build_trellis obs states initial emission transition uw us = Ok V ->
  exists path,
    backtrack_viterbi_matrix V = Ok (Some <$> path)
    /\ length path = length obs
    /\ follows_backpointers V path
    /\ forall t p s (prev : row),
         path !! t = Some p -> path !! S t = Some s -> V !! t = Some prev ->
         exists mx, is_max mx (candidates states transition us prev s)
                    /\ (candidate transition us prev s p =? mx)%float = true.
Proof.
  intros Hwf Huw Hus HV.
  destruct (build_trellis_inv _ _ _ _ _ _ _ _ Hwf Huw Hus HV) as [Hne ->].
  destruct (backtrack_ok states initial emission transition uw us Hwf Huw Hus obs Hne)
    as (r & s & path & Hlast & Hg & Hhead & Hfirst & Hback & Hlen & Hall).
  set (V := trellis states initial emission transition uw us obs) in *.
  set (tags := path ++ [s]) in *.
  assert (exists c0, List.find (fun kv => (PROBABILITY kv.2 =? fmax (prob_of r <$> states))%float) r
                     = Some (s, c0)) as [c0 Hfind].
  { unfold first_best in Hfirst.
    destruct (List.find _ r) as [[s' c']|]; [|done].
    injection Hfirst as ->. by exists c'. }
  destruct (good_row_max states initial emission transition Hwf r Hg) as [Hmx _].
  destruct (backtrack_chain V r _ s c0 _ Hlast Hmx Hfind Hback)
    as (_ & _ & Hchain).
  assert (follows_backpointers V tags) as Hfollow.
  { intros t p q Hp Hq.
    destruct (Hchain t (Some q)) as (key & r' & c & [= <-] & Hr' & Hc & Ht);
      [by rewrite list_lookup_fmap, Hq|].
    rewrite list_lookup_fmap, Hp in Ht. injection Ht as Ht.
    by exists r', c. }
  exists tags. do 3 (split; [done|]).
  intros t p q prev Hp Hq Hprev.
  destruct (Hfollow t p q Hp Hq) as (r' & c & Hr' & Hc & Hbp).
  assert (q ∈ states) as Hqs.
  { rewrite Forall_forall in Hall. apply Hall. by eapply list_elem_of_lookup_2. }
  destruct (trellis_cell _ _ _ _ _ _ _ _ _ _ _ _ Hwf Huw Hus Hprev Hr' Hqs Hc)
    as (Hgp & o & _ & _ & ->).
  exists (fmax (candidates states transition us prev q)).
  split; [by eapply candidates_max|].
  simpl in Hbp. apply last_Some_elem_of in Hbp.
  by apply list_elem_of_In, filter_In in Hbp as [_ Hbp].
Qed.

Lemma decoded_path_is_best_chain_witness :
  exists path,
    backtrack_viterbi_matrix tie_trellis = Ok (Some <$> path)
    /\ length path = length tie_observation
    /\ follows_backpointers tie_trellis path
    /\ forall t p s (prev : row),
         path !! t = Some p -> path !! S t = Some s ->
         tie_trellis !! t = Some prev ->
         exists mx, is_max mx (candidates tie_states tie_tables (-1)%float prev s)
                    /\ (candidate tie_tables (-1)%float prev s p =? mx)%float = true.
Proof.
  apply (decoded_path_is_best_chain tie_states tie_initial tie_tables tie_tables
           (-1)%float (-1)%float tie_observation tie_trellis);
    [reflexivity|reflexivity|reflexivity|by vm_compute].
Defined.

(** ** Splitting and joining *)

Lemma free_of_cons c c' s : free_of c (String c' s) <-> c' <> c /\ free_of c s.
Proof.
  unfold free_of. simpl. rewrite not_elem_of_cons. intuition congruence.
Qed.

Lemma free_of_app c (s1 s2 : string) :
  free_of c (s1 +:+ s2) <-> free_of c s1 /\ free_of c s2.
Proof.
  induction s1 as [|c' s1 IH].
  - rewrite string_app_nil_l. unfold free_of at 2. simpl.
    split; [intros H; split; [apply not_elem_of_nil|done]|by intros [_ H]].
  - rewrite string_app_cons, !free_of_cons, IH. tauto.
Qed.

Lemma split_free_of sep s : Forall (free_of sep) (split sep s).
Proof.
  induction s as [|c s IH]; simpl.
  - constructor; [apply not_elem_of_nil|constructor].
  - destruct (Ascii.eqb_spec c sep) as [->|Hne].
    + constructor; [apply not_elem_of_nil|done].
    + destruct (split sep s) as [|w ws]; [repeat constructor|].
      * apply free_of_cons. split; [done|apply not_elem_of_nil].
      * apply Forall_cons in IH as [Hw Hws].
        constructor; [|done]. by apply free_of_cons.
Qed.

Lemma split_length sep s : length (split sep s) = S (occurrences sep s).
Proof.
  induction s as [|c s IH]; simpl; [done|].
  destruct (Ascii.eqb c sep); simpl; [by rewrite IH|].
  pose proof (split_nonempty sep s). destruct (split sep s); [done|].
  simpl in *. lia.
Qed.

Lemma split_free sep w : free_of sep w -> split sep w = [w].
Proof.
  induction w as [|c w IH]; [done|].
  intros [Hne Hw]%free_of_cons. simpl.
  destruct (Ascii.eqb_spec c sep); [done|]. by rewrite IH.
Qed.

Lemma split_app_sep sep w rest :
  free_of sep w -> split sep (w +:+ String sep rest) = w :: split sep rest.
Proof.
  induction w as [|c w IH].
  - intros _. rewrite string_app_nil_l. simpl. by rewrite Ascii.eqb_refl.
  - intros [Hne Hw]%free_of_cons. rewrite string_app_cons. simpl.
    destruct (Ascii.eqb_spec c sep); [done|]. by rewrite IH.
Qed.

Lemma join_split s : join_space (split " " s) = s.
Proof.
  induction s as [|c s IH]; [done|]. simpl.
  pose proof (split_nonempty " " s) as Hne.
  destruct (Ascii.eqb_spec c " ") as [->|Hc].
  - destruct (split " " s) as [|w ws]; [done|].
    change (join_space ("" :: w :: ws)) with ("" +:+ " " +:+ join_space (w :: ws)).
    by rewrite IH.
  - destruct (split " " s) as [|w ws]; [done|].
    destruct ws as [|w' ws]; simpl in *; [by rewrite IH|].
    by rewrite <- IH.
Qed.

Lemma split_join ws :
  ws <> [] -> Forall (free_of " ") ws -> split " " (join_space ws) = ws.
Proof.
  induction ws as [|w ws IH]; [done|]. intros _ [Hw Hws]%Forall_cons.
  destruct ws as [|w' ws]; [by apply split_free|].
  change (join_space (w :: w' :: ws))
    with (w +:+ String " " (join_space (w' :: ws))).
  rewrite split_app_sep by done. by rewrite IH.
Qed.

(** X10.  Line 94 loses nothing of the stripped line: no token contains a
    space, there is one token more than the stripped line has spaces, and
    the tokens joined by single spaces are the stripped line again. *)
Theorem observation_round_trip line :
  Forall (free_of " ") (observation_of_line line)
  /\ length (observation_of_line line) = S (occurrences " " (strip line))
  /\ join_space (observation_of_line line) = strip line.
Proof.
  unfold observation_of_line.
  split; [apply split_free_of|]. split; [apply split_length|apply join_split].
Qed.

Lemma pair_text_free_of token tag :
  free_of " " token -> free_of " " tag -> free_of " " (pair_text token tag).
Proof.
  intros Ho Ht. unfold pair_text. apply free_of_app. split; [done|].
  apply free_of_app. split; [|done].
  apply free_of_cons. split; [done|apply not_elem_of_nil].
Qed.

(** X11.  For a well-formed model whose state names contain no space,
    the output line of an input line splits at its spaces into exactly one
    [token/tag] field per token of the line, in order: the spaces of the
    output are the separators and nothing else. *)
Theorem output_fields libm_log m uw us line :
  well_formed_model m = true ->
  smoothing_ok libm_log (vocabulary_len m) (states m) uw us ->
  Forall (free_of " ") (states m) ->
  exists out tags,
    viterbi libm_log (observation_of_line line) (vocabulary_len m) (states m)
      (initial_state_probability m) (emission_probability m)
      (transition_probability m)
    = Ok out
    /\ length tags = length (observation_of_line line)
    /\ split " " out = zip_with pair_text (observation_of_line line) tags.
Proof.
  intros Hwf Hsm Hfree.
  destruct (viterbi_ok libm_log (vocabulary_len m) (states m)
              (initial_state_probability m) (emission_probability m)
              (transition_probability m) uw us Hwf Hsm
              (observation_of_line line) (observation_nonempty line))
    as (r & s & path & _ & _ & Hlen & Hall & Hout).
  exists (join_space (zip_with pair_text (observation_of_line line) (path ++ [s]))),
         (path ++ [s]).
  do 2 (split; [done|]).
  pose proof (observation_nonempty line) as Hne.
  pose proof (split_free_of " " (strip line)) as Hobs.
  fold (observation_of_line line) in Hobs.
  assert (Forall (free_of " ") (path ++ [s])) as Htags.
  { eapply Forall_impl; [exact Hall|]. intros q Hq.
    rewrite Forall_forall in Hfree. by apply Hfree. }
  apply split_join.
  - destruct (observation_of_line line); [done|].
    destruct (path ++ [s]); [done|done].
  - revert Hlen Hobs Htags. generalize (path ++ [s]) as tags.
    generalize (observation_of_line line) as obs.
    induction obs as [|o obs IH]; intros tags Hlen Hobs Htags; [constructor|].
    destruct tags as [|t tags]; [constructor|]. simpl.
    apply Forall_cons in Hobs as [Ho Hobs]. apply Forall_cons in Htags as [Ht Htags].
    constructor; [by apply pair_text_free_of|].
    apply IH; [simpl in Hlen; lia|done|done].
Qed.

Lemma output_fields_witness :
  exists out tags,
    viterbi log_ref (observation_of_line "run  dog") 10 scenario_states
      (scenario_initial log_ref) (scenario_emission log_ref)
      (scenario_transition log_ref)
    = Ok out
    /\ length tags = length (observation_of_line "run  dog")
    /\ split " " out = zip_with pair_text (observation_of_line "run  dog") tags.
Proof.
  apply (output_fields log_ref scenario_model scenario_uw scenario_us "run  dog");
    [reflexivity|repeat split; reflexivity|].
  unfold free_of. by apply (bool_decide_unpack _).
Defined.

Lemma out_file_text_cons line result :
  out_file_text (line :: result) = line +:+ String "010" (out_file_text result).
Proof. done. Qed.

(** X12.  The text written to the output file has one newline-terminated
    line per element of the result and nothing else: when no output line
    contains a newline, splitting the text at its newlines gives back the
    result, followed by the empty string after the last newline. *)
Theorem out_file_round_trip result :
  Forall (free_of "010") result ->
  split "010" (out_file_text result) = result ++ [""]
  /\ occurrences "010" (out_file_text result) = length result.
Proof.
  intros H.
  assert (split "010" (out_file_text result) = result ++ [""]) as Hsplit.
  { induction H as [|line result Hline _ IH]; [done|].
    by rewrite out_file_text_cons, split_app_sep, IH. }
  split; [done|].
  pose proof (split_length "010" (out_file_text result)) as Hlen.
  rewrite Hsplit, length_app in Hlen. simpl in Hlen. lia.
Qed.

Lemma out_file_round_trip_witness :
  split "010" (out_file_text ["dog/N run/V"; "/N"]) = ["dog/N run/V"; "/N"] ++ [""]
  /\ occurrences "010" (out_file_text ["dog/N run/V"; "/N"])
     = length ["dog/N run/V"; "/N"].
Proof.
  apply (out_file_round_trip ["dog/N run/V"; "/N"]).
  unfold free_of. by apply (bool_decide_unpack _).
Defined.

(** ** Tokens enter the trellis through their emission entries only *)

Lemma list_getitem_same_length {A} (l1 l2 : list A) i :
  length l1 = length l2 ->
  match list_getitem l1 i, list_getitem l2 i with
  | Ok _, Ok _ => True
  | Raise e1, Raise e2 => e1 = e2
  | _, _ => False
  end.
Proof.
  intros Hlen. unfold list_getitem.
  destruct (l1 !! i) eqn:E1, (l2 !! i) eqn:E2; try done.
  - apply lookup_lt_Some in E1. apply lookup_ge_None in E2. lia.
  - apply lookup_ge_None in E1. apply lookup_lt_Some in E2. lia.
Qed.

(** X13.  Two observations of the same length whose tokens have, position
    by position, the same entry (or the same lack of an entry) in every
    emission table give the same trellis, for any model: tokens act on the
    scores through their emission entries only, so all unseen words are
    alike. *)
Theorem trellis_depends_on_emissions states initial emission transition uw us
    obs1 obs2 :
  length obs1 = length obs2 ->
  (forall i o1 o2 s e,
     obs1 !! i = Some o1 -> obs2 !! i = Some o2 ->
     emission !! s = Some e -> e !! o1 = e !! o2) ->
  build_trellis obs1 states initial emission transition uw us
  = build_trellis obs2 states initial emission transition uw us.
Proof.
  intros Hlen Hsame.
  assert (forall i s e,
            emission !! s = Some e ->
            (o ← list_getitem obs1 i; Ok (tbl_get e o uw))
            = (o ← list_getitem obs2 i; Ok (tbl_get e o uw))) as Hget.
  { intros i s e He. pose proof (list_getitem_same_length obs1 obs2 i Hlen) as H.
    unfold list_getitem in *.
    destruct (obs1 !! i) as [o1|] eqn:E1, (obs2 !! i) as [o2|] eqn:E2; try done.
    simpl. unfold tbl_get. by rewrite (Hsame i o1 o2 s e E1 E2 He). }
  unfold build_trellis. rewrite Hlen.
  assert (foldM (init_cell obs1 initial emission uw) states []
          = foldM (init_cell obs2 initial emission uw) states []) as ->.
  { apply foldM_ext_in. intros s acc _. unfold init_cell.
    destruct (tbl_getitem initial s) as [i|]; [|done]. simpl.
    unfold tbl_getitem. destruct (emission !! s) as [e|] eqn:He; [|done]. simpl.
    specialize (Hget 0 s e He).
    destruct (list_getitem obs1 0), (list_getitem obs2 0); simpl in *; congruence. }
  destruct (foldM (init_cell obs2 initial emission uw) states []) as [V0|]; [|done].
  simpl. apply foldM_ext_in. intros t V _. unfold extend_trellis. f_equal.
  apply foldM_ext_in. intros s acc _. unfold fill_cell.
  destruct (mapM (transition_score transition us V t s) states) as [probs|]; [|done].
  simpl. destruct (py_max probs) as [mx|]; [|done]. simpl.
  unfold tbl_getitem. destruct (emission !! s) as [e|] eqn:He; [|done]. simpl.
  specialize (Hget t s e He).
  destruct (list_getitem obs1 t), (list_getitem obs2 t); simpl in *; congruence.
Qed.

Lemma trellis_depends_on_emissions_witness :
  build_trellis ["cat"; "run"] scenario_states (scenario_initial log_ref)
    (scenario_emission log_ref) (scenario_transition log_ref)
    scenario_uw scenario_us
  = build_trellis ["emu"; "run"] scenario_states (scenario_initial log_ref)
      (scenario_emission log_ref) (scenario_transition log_ref)
      scenario_uw scenario_us.
Proof.
  apply (trellis_depends_on_emissions scenario_states (scenario_initial log_ref)
           (scenario_emission log_ref) (scenario_transition log_ref)
           scenario_uw scenario_us ["cat"; "run"] ["emu"; "run"]); [reflexivity|].
  intros [|[|i]] o1 o2 s e H1 H2 He; try done.
  - injection H1 as <-. injection H2 as <-.
    unfold scenario_emission in He.
    destruct (decide (s = "N")) as [->|Hn].
    + rewrite lookup_insert_eq in He. injection He as <-. reflexivity.
    + rewrite lookup_insert_ne in He by done.
      destruct (decide (s = "V")) as [->|Hv].
      * rewrite lookup_insert_eq in He. injection He as <-. reflexivity.
      * by rewrite lookup_insert_ne in He by done.
  - injection H1 as <-. by injection H2 as <-.
Defined.

(** ** The ends of an observation *)

Lemma lstrip_head s c s' : lstrip s = String c s' -> is_whitespace c = false.
Proof.
  induction s as [|c0 s IH]; simpl; [done|].
  destruct (is_whitespace c0) eqn:E; [done|]. by intros [= <- <-].
Qed.

Lemma lstrip_empty s : lstrip s = "" -> all_whitespace s.
Proof.
  unfold all_whitespace. induction s as [|c s IH]; simpl; [constructor|].
  destruct (is_whitespace c) eqn:E; [|done]. intros H. constructor; auto.
Qed.

Lemma rstrip_head c s :
  is_whitespace c = false -> exists r, rstrip (String c s) = String c r.
Proof.
  intros Hc. simpl. destruct (rstrip s); rewrite ?Hc; by eexists.
Qed.

Lemma rstrip_last s c :
  last (list_ascii_of_string (rstrip s)) = Some c -> is_whitespace c = false.
Proof.
  induction s as [|c0 s IH]; simpl; [done|].
  destruct (rstrip s) as [|c1 r] eqn:Er.
  - destruct (is_whitespace c0) eqn:E; simpl; [done|]. by intros [= <-].
  - simpl in *. exact IH.
Qed.

Lemma split_head sep c s :
  c <> sep -> exists w ws, split sep (String c s) = String c w :: ws.
Proof.
  intros Hne. simpl. destruct (Ascii.eqb_spec c sep); [done|].
  destruct (split sep s); by eexists _, _.
Qed.

Lemma split_last sep s c :
  last (list_ascii_of_string s) = Some c -> c <> sep ->
  exists w, last (split sep s) = Some w /\ w <> "".
Proof.
  induction s as [|c0 s IH]; [done|]. intros Hlast Hne.
  destruct s as [|c1 s].
  - simpl in Hlast. injection Hlast as ->. simpl.
    destruct (Ascii.eqb_spec c sep); [done|]. by eexists.
  - destruct (IH Hlast Hne) as (w & Hw & Hwne).
    change (split sep (String c0 (String c1 s)))
      with (if Ascii.eqb c0 sep then "" :: split sep (String c1 s)
            else match split sep (String c1 s) with
                 | [] => [String c0 ""]
                 | w :: ws => String c0 w :: ws
                 end).
    destruct (Ascii.eqb c0 sep).
    + exists w. split; [|done]. rewrite last_cons. by rewrite Hw.
    + destruct (split sep (String c1 s)) as [|w0 ws]; [done|].
      destruct ws as [|w1 ws].
      * exists (String c0 w0). split; [reflexivity|discriminate].
      * exists w. split; [|done]. rewrite last_cons_cons.
        by rewrite last_cons_cons in Hw.
Qed.

(** X14.  A line that is not blank never gives an empty token at either
    end of the observation: the first and the last token are non-empty, so
    an empty token can only come from two adjacent spaces inside the
    line. *)
Theorem observation_ends_nonempty line :
  ~ all_whitespace line ->
  exists first final,
    head (observation_of_line line) = Some first
    /\ last (observation_of_line line) = Some final
    /\ first <> "" /\ final <> "".
Proof.
  intros Hline. unfold observation_of_line, strip.
  destruct (lstrip line) as [|c s] eqn:El; [by apply lstrip_empty in El|].
  pose proof (lstrip_head _ _ _ El) as Hc.
  destruct (rstrip_head c s Hc) as [r Hr].
  assert (exists c', last (list_ascii_of_string (rstrip (String c s))) = Some c')
    as [c' Hc'].
  { rewrite Hr. simpl. destruct (last (c :: list_ascii_of_string r)) eqn:E; [by eexists|].
    by apply last_None in E. }
  pose proof (rstrip_last _ _ Hc') as Hws.
  destruct (split_last " " _ c' Hc') as (w & Hw & Hwne); [by intros ->|].
  rewrite Hr in *.
  destruct (split_head " " c r) as (w0 & ws & Hsplit); [by intros ->|].
  exists (String c w0), w. rewrite Hsplit in *. by repeat split.
Qed.

Lemma observation_ends_nonempty_witness :
  exists first final,
    head (observation_of_line " run  dog ") = Some first
    /\ last (observation_of_line " run  dog ") = Some final
    /\ first <> "" /\ final <> "".
Proof.
  apply (observation_ends_nonempty " run  dog ").
  unfold all_whitespace. intros H. apply Forall_cons in H as [_ H].
  by apply Forall_cons in H as [H _].
Defined.

(** ** What holds of the trellis for any model *)

Lemma foldM_invariant {A B} (P : B -> Prop) (body : B -> A -> result B) l acc r :
  P acc ->
  (forall a x b, x ∈ l -> P a -> body a x = Ok b -> P b) ->
  foldM body l acc = Ok r -> P r.
Proof.
  revert acc; induction l as [|x l IH]; intros acc Hacc Hstep H.
  - by injection H as <-.
  - rewrite foldM_cons in H. destruct (body acc x) as [acc'|] eqn:E; [|done].
    simpl in H. apply (IH acc'); [|intros a y b Hy; apply Hstep; by right|done].
    eapply Hstep; [by left|exact Hacc|exact E].
Qed.

Lemma dict_setitem_Forall {V} (P : string * V -> Prop) k v (d : pydict V) :
  P (k, v) -> Forall P d -> Forall P (dict_setitem k v d).
Proof.
  intros Hkv. induction 1 as [|[k' v'] d Hk' Hd IH]; simpl.
  - by repeat constructor.
  - destruct (String.eqb_spec k k') as [->|Hne]; constructor; auto.
Qed.

Lemma dict_lookup_elem {V} k (d : pydict V) v :
  dict_lookup k d = Some v -> (k, v) ∈ d.
Proof.
  induction d as [|[k' v'] d IH]; simpl; [done|].
  destruct (String.eqb_spec k k') as [->|Hne].
  - intros [= ->]. by left.
  - intros H. right. by apply IH.
Qed.

Lemma find_elem {A} (test : A -> bool) (l : list A) x :
  List.find test l = Some x -> x ∈ l.
Proof. intros [H _]%find_some. by apply list_elem_of_In. Qed.

Lemma init_loop_within obs states initial emission uw V0 :
  foldM (init_cell obs initial emission uw) states [] = Ok V0 ->
  row_within states false V0.
Proof.
  apply (foldM_invariant (row_within states false)); [constructor|].
  intros a s b Hs Ha. unfold init_cell.
  destruct (tbl_getitem initial s); [|done]. simpl.
  destruct (tbl_getitem emission s); [|done]. simpl.
  destruct (list_getitem obs 0); [|done]. simpl. intros [= <-].
  by apply dict_setitem_Forall.
Qed.

Lemma fill_loop_within obs states emission transition uw us V t Vt :
  foldM (fill_cell obs states emission transition uw us V t) states [] = Ok Vt ->
  row_within states true Vt.
Proof.
  apply (foldM_invariant (row_within states true)); [constructor|].
  intros a s b Hs Ha. unfold fill_cell.
  destruct (mapM _ states); [|done]. simpl.
  destruct (py_max _) as [mx|]; [|done]. simpl.
  destruct (tbl_getitem emission s); [|done]. simpl.
  destruct (list_getitem obs t); [|done]. simpl.
  apply (foldM_invariant (row_within states true)); [done|].
  intros a' p b' Hp Ha'. unfold record_backpointer.
  destruct (transition_score transition us V t s p); [|done]. simpl.
  destruct (_ =? _)%float; intros [= <-]; [|done].
  apply dict_setitem_Forall; [|done]. simpl. split; [done|]. by exists p.
Qed.

Lemma extend_loop_within obs states emission transition uw us ts V0 V :
  row_within states false V0 ->
  foldM (extend_trellis obs states emission transition uw us) ts [V0] = Ok V ->
  trellis_within states V /\ length V = S (length ts).
Proof.
  intros H0.
  assert (forall acc, trellis_within states acc /\ acc <> [] ->
            foldM (extend_trellis obs states emission transition uw us) ts acc = Ok V ->
            (trellis_within states V /\ V <> []) /\ length V = length acc + length ts)
    as Hgen.
  { induction ts as [|t ts IH]; intros acc Hacc H.
    - injection H as <-. split; [done|simpl; lia].
    - rewrite foldM_cons in H.
      destruct (extend_trellis obs states emission transition uw us acc t)
        as [acc'|] eqn:Eext; [|done].
      simpl in H. unfold extend_trellis in Eext.
      destruct (foldM (fill_cell obs states emission transition uw us acc t) states [])
        as [Vt|] eqn:E; [|done].
      simpl in Eext. injection Eext as <-. apply fill_loop_within in E.
      destruct (IH (acc ++ [Vt])) as [HV Hlen]; [|done|].
      + destruct Hacc as [Hacc Hne]. split; [|by destruct acc].
        destruct acc as [|r0 rows]; [done|]. destruct Hacc as [Hr0 Hrows].
        split; [done|]. apply Forall_app. split; [done|by constructor].
      + split; [done|]. rewrite length_app in Hlen. simpl in *. lia. }
  intros H. destruct (Hgen [V0]) as [[HV _] Hlen]; [by repeat split|done|].
  by split.
Qed.

Lemma row_within_weaken states linked r :
  row_within states linked r -> row_within states false r.
Proof.
  unfold row_within. intros H. eapply Forall_impl; [exact H|].
  intros kv [Hk _]. by split.
Qed.

Lemma trellis_within_last states V (r : row) :
  trellis_within states V -> last V = Some r -> row_within states false r.
Proof.
  destruct V as [|V0 rows]; [done|]. intros [H0 Hrows] Hlast.
  apply last_Some_elem_of, elem_of_cons in Hlast as [->|Hr]; [done|].
  rewrite Forall_forall in Hrows. eapply row_within_weaken. by apply Hrows.
Qed.

Lemma trellis_within_later states V t (r : row) :
  trellis_within states V -> V !! S t = Some r -> row_within states true r.
Proof.
  destruct V as [|V0 rows]; [done|]. intros [_ Hrows] Hr. simpl in Hr.
  rewrite Forall_forall in Hrows. apply Hrows. by eapply list_elem_of_lookup_2.
Qed.

(** The engine's trellis, for any model: one row per token, keyed by
    states, the rows after the first linked by backpointers to states. *)
Lemma build_trellis_within obs states initial emission transition uw us V :
  obs <> [] ->
  build_trellis obs states initial emission transition uw us = Ok V ->
  trellis_within states V /\ length V = length obs.
Proof.
  intros Hne H. unfold build_trellis in H.
  destruct (foldM (init_cell obs initial emission uw) states []) as [V0|] eqn:E0;
    [|done].
  simpl in H. apply init_loop_within in E0.
  destruct (extend_loop_within _ _ _ _ _ _ _ _ _ E0 H) as [HV Hlen].
  split; [done|]. rewrite Hlen, length_seq. destruct obs; [done|simpl; lia].
Qed.

(** The tags the backtracker returns for such a trellis, when there are
    as many as rows. *)
Lemma backtrack_within states V tags :
  trellis_within states V ->
  backtrack_viterbi_matrix V = Ok tags ->
  length tags = length V - 1
  \/ (length tags = length V
      /\ Forall (fun x => exists p, x = Some p /\ p ∈ states) tags).
Proof.
  intros HV H. pose proof H as H'.
  unfold backtrack_viterbi_matrix, list_getlast in H.
  destruct (last V) as [r|] eqn:Hlast; [|done]. simpl in H.
  destruct (py_max (PROBABILITY <$> dict_values r)) as [mx|] eqn:Hmx; [|done].
  simpl in H. unfold first_best in H.
  destruct (List.find (fun kv => (PROBABILITY kv.2 =? mx)%float) r)
    as [[s c0]|] eqn:Hfind.
  - right.
    destruct (backtrack_chain V r mx s c0 tags Hlast Hmx Hfind H')
      as (Hlen & Hlasttag & Hchain).
    split; [done|]. apply Forall_lookup. intros i x Hx.
    destruct (tags !! S i) as [y|] eqn:Hy.
    + destruct (Hchain i y Hy) as (key & r' & c & -> & Hr' & Hc & Hi).
      rewrite Hx in Hi. injection Hi as ->.
      pose proof (trellis_within_later states V i r' HV Hr') as Hrow.
      unfold row_within in Hrow. rewrite Forall_forall in Hrow.
      destruct (Hrow _ (dict_lookup_elem _ _ _ Hc)) as [_ Hbp].
      destruct (Hbp eq_refl) as (p & Hp & Hps). simpl in Hp. by exists p.
    + assert (last tags = Some x) as Hxl.
      { apply lookup_ge_None in Hy. apply lookup_lt_Some in Hx as Hlt.
        rewrite last_lookup. replace (Init.Nat.pred (length tags)) with i by lia.
        done. }
      rewrite Hlasttag in Hxl. injection Hxl as <-. exists s. split; [done|].
      pose proof (trellis_within_last states V r HV Hlast) as Hrow.
      unfold row_within in Hrow. rewrite Forall_forall in Hrow.
      by destruct (Hrow _ (find_elem _ _ _ Hfind)) as [Hs _].
  - left.
    destruct (foldM (backtrack_step V) (rev (seq 0 (length V - 1)))
                ([], Some "RDM")) as [acc|] eqn:Eacc; [|done].
    simpl in H. injection H as <-.
    destruct (backtrack_walk V _ _ _ _ Eacc) as (path & Hlen & Hacc & _).
    rewrite Hacc, length_rev. simpl. by rewrite length_rev.
Qed.

(** X1.  Whatever the model, when [viterbi] returns, the line it returns
    is exactly one [token/tag] pair per token of the observation, in the
    order of the tokens, joined by single spaces, and every tag is a state
    of the model: a decode that cannot tag every token, or that falls back
    on the sentinel of the backtracker, raises instead of returning. *)
Theorem viterbi_output_aligned libm_log obs distinct_word_count states
    initial emission transition out :
  viterbi libm_log obs distinct_word_count states initial emission transition
  = Ok out ->
  exists tags,
    length tags = length obs
    /\ Forall (fun tag => tag ∈ states) tags
    /\ out = join_space (zip_with pair_text obs tags).
Proof.
  unfold viterbi. intros H.
  destruct (unknown_prob libm_log distinct_word_count) as [uw|]; [|done].
  destruct (unknown_prob libm_log (Z.of_nat (length states))) as [us|] eqn:Es;
    [|done].
  simpl in H.
  destruct (build_trellis obs states initial emission transition uw us)
    as [V|] eqn:EV; [|done].
  simpl in H. destruct (backtrack_viterbi_matrix V) as [tags|] eqn:Eback; [|done].
  simpl in H.
  assert (obs <> []) as Hne.
  { intros ->. apply unknown_prob_Ok_nonzero in Es.
    destruct (build_trellis_empty states initial emission transition uw us)
      as [e He]; [by destruct states|congruence]. }
  destruct (build_trellis_within _ _ _ _ _ _ _ _ Hne EV) as [HV HlenV].
  destruct (Some_prefix tags (length obs)) as (ts & Hlen & Hts).
  { intros i Hi. unfold format_output in H.
    destruct (foldM (append_pair obs tags) (seq 0 (length obs)) "") as [o|] eqn:E;
      [|done].
    destruct (foldM_Ok_each _ _ _ _ E i) as (a & b & Hab).
    { apply list_elem_of_In, in_seq. lia. }
    unfold append_pair, list_getitem in Hab.
    destruct (obs !! i); [|done]. simpl in Hab.
    destruct (tags !! i) as [[t|]|]; [|done|done]. by exists t. }
  assert (length obs <= length tags) as Hge.
  { rewrite <- Hlen, <- (length_fmap Some ts), <- Hts, length_take. lia. }
  destruct (backtrack_within states V tags HV Eback) as [Hshort|[Hfull Hall]].
  { destruct obs; [done|]. simpl in *. lia. }
  rewrite take_ge in Hts by lia. subst tags.
  exists ts. split; [done|]. split.
  - apply Forall_forall. intros t Ht. rewrite Forall_forall in Hall.
    destruct (Hall (Some t)) as (p & [= <-] & Hp); [|done].
    apply list_elem_of_fmap. by exists t.
  - rewrite format_output_ok in H by done. by injection H.
Qed.

Lemma viterbi_output_aligned_witness :
  exists tags,
    length tags = length ["dog"; "run"]
    /\ Forall (fun tag => tag ∈ scenario_states) tags
    /\ "dog/N run/V" = join_space (zip_with pair_text ["dog"; "run"] tags).
Proof.
  apply (viterbi_output_aligned log_ref ["dog"; "run"] 10 scenario_states
           (scenario_initial log_ref) (scenario_emission log_ref)
           (scenario_transition log_ref) "dog/N run/V").
  by vm_compute.
Defined.

(** X15.  Whatever the model, a trellis the engine returns for a
    non-empty observation has one row per token; every key of a row is a
    state of the model, and every cell of a step [t >= 1] records a state
    of the model as its backpointer. *)
Theorem trellis_within_states obs states initial emission transition uw us V
    t (r : row) s c :
  obs <> [] ->
  build_trellis obs states initial emission transition uw us = Ok V ->
  V !! t = Some r -> dict_lookup s r = Some c ->
  length V = length obs
  /\ s ∈ states
  /\ (1 <= t -> exists p, BACKPOINTER c = Some p /\ p ∈ states).
Proof.
  intros Hne HV Hr Hc.
  destruct (build_trellis_within _ _ _ _ _ _ _ _ Hne HV) as [Hin Hlen].
  split; [done|]. apply dict_lookup_elem in Hc.
  destruct t as [|t].
  - destruct V as [|V0 rows]; [done|]. simpl in Hr. injection Hr as ->.
    destruct Hin as [H0 _]. unfold row_within in H0. rewrite Forall_forall in H0.
    destruct (H0 _ Hc) as [Hs _]. split; [done|]. lia.
  - pose proof (trellis_within_later states V t r Hin Hr) as Hrow.
    unfold row_within in Hrow. rewrite Forall_forall in Hrow.
    destruct (Hrow _ Hc) as [Hs Hbp]. split; [done|]. intros _. by apply Hbp.
Qed.

Lemma trellis_within_states_witness :
  length tie_trellis = length tie_observation
  /\ "A" ∈ tie_states
  /\ (1 <= 1 -> exists p, BACKPOINTER (Cell (-4)%float (Some "B")) = Some p
                          /\ p ∈ tie_states).
Proof.
  apply (trellis_within_states tie_observation tie_states tie_initial tie_tables
           tie_tables (-1)%float (-1)%float tie_trellis 1 tie_row1 "A"
           (Cell (-4)%float (Some "B"))); [done|by vm_compute|reflexivity|reflexivity].
Defined.

(** * Properties of the language-identification dataset *)

(** ** The scan of the texts *)

Lemma adjacent_short (chars : list string) : length chars <= 1 -> adjacent chars = [].
Proof. destruct chars as [|a [|b rest]]; simpl; [done|done|lia]. Qed.

Lemma adjacent_drop (chars : list string) i :
  S i < length chars ->
  adjacent (drop i chars)
  = (nth i chars EmptyString +:+ nth (i + 1) chars EmptyString)
      :: adjacent (drop (S i) chars).
Proof.
  intros Hlt.
  destruct (lookup_lt_is_Some_2 chars i) as [a Ha]; [lia|].
  destruct (lookup_lt_is_Some_2 chars (S i)) as [b Hb]; [lia|].
  rewrite (drop_S chars a i Ha), (drop_S chars b (S i) Hb). simpl.
  replace (i + 1) with (S i) by lia.
  by rewrite (nth_lookup_Some _ _ _ _ Ha), (nth_lookup_Some _ _ _ _ Hb).
Qed.

Lemma scan_bigram_loop train (chars : list string) k :
  forall i bl v c,
    i + k = length chars - 1 ->
    foldl (scan_bigram train chars) (bl, v, c) (seq i k)
    = (bl ++ adjacent (drop i chars),
       (if train then foldl learn (v, c) (adjacent (drop i chars)) else (v, c)).1,
       (if train then foldl learn (v, c) (adjacent (drop i chars)) else (v, c)).2).
Proof.
  induction k as [|k IH]; intros i bl v c Hik.
  - rewrite adjacent_short by (rewrite length_drop; lia). simpl.
    rewrite app_nil_r. by destruct train.
  - rewrite adjacent_drop by lia. simpl.
    destruct train; simpl.
    + unfold learn at 2 4. simpl.
      destruct (dict_lookup _ v) eqn:E; rewrite IH by lia;
        by rewrite <- app_assoc.
    + rewrite IH by lia. by rewrite <- app_assoc.
Qed.

Lemma scan_text_ok train txts v c text :
  scan_text train (txts, v, c) text
  = (txts ++ [bigrams_of text],
     (if train then foldl learn (v, c) (bigrams_of text) else (v, c)).1,
     (if train then foldl learn (v, c) (bigrams_of text) else (v, c)).2).
Proof.
  unfold scan_text.
  rewrite (scan_bigram_loop train (characters text) _ 0 [] v c) by lia.
  by rewrite drop_0.
Qed.

Lemma scan_texts_ok train data :
  forall txts v c,
    foldl (scan_text train) (txts, v, c) data
    = (txts ++ (bigrams_of <$> data),
       (if train then foldl learn (v, c) (concat (bigrams_of <$> data)) else (v, c)).1,
       (if train then foldl learn (v, c) (concat (bigrams_of <$> data)) else (v, c)).2).
Proof.
  induction data as [|text data IH]; intros txts v c.
  - simpl. rewrite app_nil_r. by destruct train.
  - change (foldl (scan_text train) (txts, v, c) (text :: data))
      with (foldl (scan_text train) (scan_text train (txts, v, c) text) data).
    rewrite scan_text_ok, IH. rewrite <- app_assoc. simpl.
    destruct train; simpl; [|done].
    rewrite foldl_app. by destruct (foldl learn (v, c) (bigrams_of text)).
Qed.

(** [__init__] returns the bigrams of the stripped lines, and in training
    mode the vocabulary that numbers them in order of first occurrence. *)
Lemma LangDataset_init_inv text_lines label_lines given d :
  LangDataset_init text_lines label_lines given = Ok d ->
  texts d = bigrams_of <$> file_to_list text_lines
  /\ vocab d = match given with
               | Some v => v
               | None => (foldl learn ([("unk", 1)], 2)
                            (concat (bigrams_of <$> file_to_list text_lines))).1
               end
  /\ match label_lines with
     | Some lines => mapM (dict_getitem label_dict) (file_to_list lines) = Ok (labels d)
     | None => labels d = []
     end.
Proof.
  unfold LangDataset_init. intros H.
  rewrite scan_texts_ok in H.
  destruct label_lines as [lines|].
  - destruct (mapM (dict_getitem label_dict) (file_to_list lines)) as [ls|]; [|done].
    simpl in H. injection H as <-. simpl. by destruct given.
  - simpl in H. injection H as <-. simpl. by destruct given.
Qed.

(** ** The vocabulary *)

Lemma dict_lookup_setitem {V} k k' (v : V) d :
  dict_lookup k (dict_setitem k' v d)
  = if String.eqb k k' then Some v else dict_lookup k d.
Proof.
  induction d as [|[k0 v0] d IH]; simpl; [done|].
  destruct (String.eqb_spec k' k0) as [->|Hne]; simpl.
  - by destruct (String.eqb_spec k k0).
  - destruct (String.eqb_spec k k0) as [->|Hne'].
    + destruct (String.eqb_spec k0 k'); [by subst|done].
    + exact IH.
Qed.

Lemma dict_lookup_None {V} k (d : pydict V) :
  dict_lookup k d = None -> k ∉ dict_keys d.
Proof.
  induction d as [|[k0 v0] d IH]; simpl; [intros _; apply not_elem_of_nil|].
  destruct (String.eqb_spec k k0) as [->|Hne]; [done|].
  intros H. apply not_elem_of_cons. auto.
Qed.

Lemma learn_numbered vc b : numbered vc -> numbered (learn vc b).
Proof.
  destruct vc as [v c]. unfold learn. simpl.
  destruct (dict_lookup b v) eqn:E; [done|].
  intros ([rest Hrest] & Hvals & Hkeys & Hc). simpl in *.
  apply dict_lookup_None in E. rewrite dict_setitem_fresh by done.
  unfold numbered. simpl. split; [|split; [|split]].
  - exists (rest ++ [(b, c)]). by rewrite Hrest.
  - unfold dict_values in *. rewrite fmap_app, length_app, Hvals. simpl.
    replace (length v + 1) with (S (length v)) by lia.
    rewrite seq_S. by rewrite Hc.
  - unfold dict_keys in *. rewrite fmap_app. simpl.
    apply NoDup_app. split; [done|]. split; [|apply NoDup_singleton].
    intros k Hk ->%list_elem_of_singleton. done.
  - rewrite length_app. simpl. lia.
Qed.

Lemma learn_keeps vc b k id :
  dict_lookup k vc.1 = Some id -> dict_lookup k (learn vc b).1 = Some id.
Proof.
  destruct vc as [v c]. unfold learn. simpl. intros Hk.
  destruct (dict_lookup b v) eqn:E; [done|]. simpl.
  rewrite dict_lookup_setitem.
  destruct (String.eqb_spec k b) as [->|]; [congruence|done].
Qed.

Lemma learn_knows vc b : is_Some (dict_lookup b (learn vc b).1).
Proof.
  destruct vc as [v c]. unfold learn. simpl.
  destruct (dict_lookup b v) eqn:E; simpl; [by rewrite E|].
  by rewrite dict_lookup_setitem, String.eqb_refl.
Qed.

Lemma learn_all_numbered bs : forall vc, numbered vc -> numbered (foldl learn vc bs).
Proof.
  induction bs as [|b bs IH]; intros vc H; [done|]. simpl.
  by apply IH, learn_numbered.
Qed.

Lemma learn_all_keeps bs : forall vc k id,
  dict_lookup k vc.1 = Some id -> dict_lookup k (foldl learn vc bs).1 = Some id.
Proof.
  induction bs as [|b bs IH]; intros vc k id H; [done|]. simpl.
  by apply IH, learn_keeps.
Qed.

Lemma learn_all_knows bs : forall vc b,
  b ∈ bs -> is_Some (dict_lookup b (foldl learn vc bs).1).
Proof.
  induction bs as [|b0 bs IH]; intros vc b Hb; [by apply elem_of_nil in Hb|].
  simpl. apply elem_of_cons in Hb as [->|Hb]; [|by apply IH].
  destruct (learn_knows vc b0) as [id Hid].
  exists id. by apply learn_all_keeps.
Qed.

Lemma numbered_start : numbered ([("unk", 1)], 2).
Proof.
  split; [by exists []|]. split; [done|]. split; [|done].
  apply NoDup_singleton.
Qed.

(** In a numbered vocabulary every id is between 1 and the size, and two
    keys with the same id are the same key. *)
Lemma numbered_id_range vc k id :
  numbered vc -> dict_lookup k vc.1 = Some id ->
  1 <= id <= length vc.1 /\ (id = 1 -> k = "unk").
Proof.
  intros ([rest Hrest] & Hvals & Hkeys & _) Hk.
  pose proof (dict_lookup_elem _ _ _ Hk) as Hin.
  assert (id ∈ seq 1 (length vc.1)) as Hid.
  { rewrite <- Hvals. unfold dict_values. apply list_elem_of_fmap.
    by exists (k, id). }
  apply list_elem_of_In, in_seq in Hid. split; [lia|].
  intros ->. rewrite Hrest in Hin, Hvals.
  apply elem_of_cons in Hin as [[= -> ]|Hin]; [done|].
  unfold dict_values in Hvals. simpl in Hvals. injection Hvals as Hvals.
  assert (1 ∈ seq 2 (length rest)) as H1.
  { rewrite <- Hvals. apply list_elem_of_fmap. by exists (k, 1). }
  apply list_elem_of_In, in_seq in H1. lia.
Qed.

Lemma numbered_inj vc k1 k2 id :
  numbered vc -> dict_lookup k1 vc.1 = Some id -> dict_lookup k2 vc.1 = Some id ->
  k1 = k2.
Proof.
  intros (_ & Hvals & _ & _) H1 H2.
  apply dict_lookup_elem, list_elem_of_lookup in H1 as [i1 H1].
  apply dict_lookup_elem, list_elem_of_lookup in H2 as [i2 H2].
  assert (NoDup (dict_values vc.1)) as Hnd by (rewrite Hvals; apply NoDup_seq).
  assert (i1 = i2) as ->.
  { eapply (NoDup_lookup _ _ _ id Hnd); unfold dict_values;
      rewrite list_lookup_fmap; [by rewrite H1|by rewrite H2]. }
  congruence.
Qed.

(** ** Bigrams *)

Lemma string_length_app (s1 s2 : string) :
  String.length (s1 +:+ s2) = String.length s1 + String.length s2.
Proof.
  induction s1 as [|c s1 IH]; [done|]. rewrite string_app_cons. simpl.
  by rewrite IH.
Qed.



Lemma characters_single text :
  Forall (fun s => String.length s = 1) (characters text).
Proof.
  unfold characters. constructor; [done|]. apply Forall_app. split.
  - apply Forall_fmap, Forall_forall. by intros c _.
  - by repeat constructor.
Qed.


Lemma adjacent_two (chars : list string) :
  Forall (fun s => String.length s = 1) chars ->
  Forall (fun b => String.length b = 2) (adjacent chars).
Proof.
  induction chars as [|a [|b rest] IH]; intros H; [constructor|constructor|].
  change (adjacent (a :: b :: rest)) with ((a +:+ b) :: adjacent (b :: rest)).
  apply Forall_cons in H as [Ha H]. pose proof H as [Hb _]%Forall_cons.
  constructor; [|by apply IH]. rewrite string_length_app. lia.
Qed.


Lemma bigrams_of_two text b : b ∈ bigrams_of text -> String.length b = 2.
Proof.
  intros Hb. pose proof (adjacent_two _ (characters_single text)) as H.
  rewrite Forall_forall in H. by apply H.
Qed.

Lemma adjacent_inj a (l1 l2 : list string) :
  adjacent (a :: l1) = adjacent (a :: l2) -> l1 = l2.
Proof.
  revert a l2; induction l1 as [|b1 l1 IH]; intros a [|b2 l2] H; try done.
  change ((a +:+ b1) :: adjacent (b1 :: l1) = (a +:+ b2) :: adjacent (b2 :: l2)) in H.
  injection H as Hb Hrest. apply (inj (String.app a)) in Hb as ->.
  f_equal. by apply (IH b2).
Qed.

Lemma list_ascii_inj s1 s2 :
  list_ascii_of_string s1 = list_ascii_of_string s2 -> s1 = s2.
Proof.
  revert s2; induction s1 as [|c s1 IH]; intros [|c2 s2] H; try done.
  simpl in H. injection H as -> H. f_equal. by apply IH.
Qed.

(** A text is determined by its bigrams. *)
Lemma bigrams_of_inj t1 t2 : bigrams_of t1 = bigrams_of t2 -> t1 = t2.
Proof.
  unfold bigrams_of, characters. simpl. intros H%adjacent_inj.
  apply app_inj_tail in H as [H _].
  apply list_ascii_inj.
  revert H. generalize (list_ascii_of_string t1) (list_ascii_of_string t2).
  induction l as [|c l IH]; intros [|c' l'] H; try done.
  simpl in H. injection H as -> H. f_equal. by apply IH.
Qed.

(** ** Training mode *)

Lemma training_numbered text_lines label_lines d :
  LangDataset_init text_lines label_lines None = Ok d ->
  exists c, numbered (vocab d, c)
            /\ forall text b, text ∈ file_to_list text_lines -> b ∈ bigrams_of text ->
                 is_Some (dict_lookup b (vocab d)).
Proof.
  intros (_ & Hv & _)%LangDataset_init_inv.
  set (bs := concat (bigrams_of <$> file_to_list text_lines)) in *.
  exists (foldl learn ([("unk", 1)], 2) bs).2. split.
  - rewrite Hv. pose proof (learn_all_numbered bs _ numbered_start) as H.
    by destruct (foldl learn ([("unk", 1)], 2) bs).
  - intros text b Ht Hb. rewrite Hv. apply learn_all_knows.
    apply list_elem_of_In, in_concat. exists (bigrams_of text).
    split; apply list_elem_of_In; [|done].
    apply list_elem_of_fmap. by exists text.
Qed.

(** X16.  A vocabulary built by [LangDataset] in training mode numbers
    its keys 1, 2, ... in insertion order without gap or repetition, "unk"
    being 1; every bigram of every text is a key, and its id lies between 2
    and the size of the vocabulary. *)
Theorem training_vocabulary text_lines label_lines d :
  LangDataset_init text_lines label_lines None = Ok d ->
  dict_lookup "unk" (vocab d) = Some 1
  /\ dict_values (vocab d) = seq 1 (length (vocab d))
  /\ NoDup (dict_keys (vocab d))
  /\ forall text b, text ∈ file_to_list text_lines -> b ∈ bigrams_of text ->
       exists id, dict_lookup b (vocab d) = Some id /\ 2 <= id <= length (vocab d).
Proof.
  intros Hd. destruct (training_numbered _ _ _ Hd) as (c & Hnum & Hknown).
  pose proof Hnum as ([rest Hrest] & Hvals & Hkeys & _). simpl in *.
  split; [by rewrite Hrest|]. do 2 (split; [done|]).
  intros text b Ht Hb. destruct (Hknown text b Ht Hb) as [id Hid].
  exists id. split; [done|].
  destruct (numbered_id_range (vocab d, c) b id Hnum Hid) as [Hrange Hone].
  apply bigrams_of_two in Hb. simpl in Hrange.
  destruct (decide (id = 1)) as [->|]; [|lia].
  rewrite (Hone eq_refl) in Hb. done.
Qed.

Lemma training_vocabulary_witness :
  dict_lookup "unk" [("unk", 1); ("$a", 2); ("ab", 3); ("b$", 4)] = Some 1
  /\ dict_values [("unk", 1); ("$a", 2); ("ab", 3); ("b$", 4)]
     = seq 1 (length [("unk", 1); ("$a", 2); ("ab", 3); ("b$", 4)])
  /\ NoDup (dict_keys [("unk", 1); ("$a", 2); ("ab", 3); ("b$", 4)])
  /\ forall text b, text ∈ file_to_list ["ab "] -> b ∈ bigrams_of text ->
       exists id, dict_lookup b [("unk", 1); ("$a", 2); ("ab", 3); ("b$", 4)] = Some id
                  /\ 2 <= id <= length [("unk", 1); ("$a", 2); ("ab", 3); ("b$", 4)].
Proof.
  apply (training_vocabulary ["ab "] None
           (Dataset [] [("unk", 1); ("$a", 2); ("ab", 3); ("b$", 4)]
                    [["$a"; "ab"; "b$"]])).
  reflexivity.
Defined.

Lemma getitem_Ok_inv d i ids lab :
  getitem d i = Ok (ids, lab) ->
  exists bigrams,
    texts d !! i = Some bigrams
    /\ mapM (encode_bigram (vocab d)) bigrams = Ok ids.
Proof.
  unfold getitem, list_getitem.
  destruct (texts d !! i) as [bigrams|]; [|done]. simpl.
  destruct (mapM (encode_bigram (vocab d)) bigrams) as [text|] eqn:E; [|done].
  simpl. destruct (length (labels d) =? 0)%nat.
  - intros [= <- _]. by exists bigrams.
  - destruct (labels d !! i); [|done]. simpl. intros [= <- _]. by exists bigrams.
Qed.



Lemma encode_inj v c (li lj : list string) ids :
  numbered (v, c) ->
  (forall b, b ∈ li -> is_Some (dict_lookup b v)) ->
  (forall b, b ∈ lj -> is_Some (dict_lookup b v)) ->
  mapM (encode_bigram v) li = Ok ids -> mapM (encode_bigram v) lj = Ok ids ->
  li = lj.
Proof.
  intros Hnum Hki Hkj Hmi%mapM_Ok_Forall2 Hmj%mapM_Ok_Forall2.
  revert lj Hkj Hmj.
  induction Hmi as [|b id li ids Hb Hmi IH]; intros lj Hkj Hmj.
  - by inversion Hmj.
  - inversion Hmj as [|b' ? lj' ? Hb' Hmj']; subst. f_equal.
    + destruct (Hki b) as [x Hx]; [by left|].
      destruct (Hkj b') as [x' Hx']; [by left|].
      unfold encode_bigram in Hb, Hb'. rewrite Hx in Hb. rewrite Hx' in Hb'.
      injection Hb as ->. injection Hb' as ->.
      by apply (numbered_inj (v, c) b b' id Hnum).
    + apply IH; [intros x Hx; apply Hki; by right| |done].
      intros x Hx. apply Hkj. by right.
Qed.

(** X18.  In training mode the encoding loses nothing: two texts of the
    dataset with the same list of ids are the same stripped line. *)
Theorem training_encoding_injective text_lines label_lines d i j ids l1 l2 :
  LangDataset_init text_lines label_lines None = Ok d ->
  getitem d i = Ok (ids, l1) -> getitem d j = Ok (ids, l2) ->
  file_to_list text_lines !! i = file_to_list text_lines !! j.
Proof.
  intros Hd Hgi Hgj.
  pose proof (LangDataset_init_inv _ _ _ _ Hd) as (Htexts & _ & _).
  destruct (training_numbered _ _ _ Hd) as (c & Hnum & Hknown).
  destruct (getitem_Ok_inv _ _ _ _ Hgi) as (bi & Hbi & Hmi).
  destruct (getitem_Ok_inv _ _ _ _ Hgj) as (bj & Hbj & Hmj).
  rewrite Htexts, list_lookup_fmap in Hbi, Hbj.
  destruct (file_to_list text_lines !! i) as [ti|] eqn:Hti; [|done].
  destruct (file_to_list text_lines !! j) as [tj|] eqn:Htj; [|done].
  simpl in Hbi, Hbj. injection Hbi as <-. injection Hbj as <-.
  f_equal. apply bigrams_of_inj.
  assert (ti ∈ file_to_list text_lines) as Hi by by eapply list_elem_of_lookup_2.
  assert (tj ∈ file_to_list text_lines) as Hj by by eapply list_elem_of_lookup_2.
  apply (encode_inj (vocab d) c _ _ ids Hnum); [| |done|done].
  - intros b Hb. by apply (Hknown ti).
  - intros b Hb. by apply (Hknown tj).
Qed.

Lemma training_encoding_injective_witness :
  file_to_list ["ab "; "b"; "ab"] !! 0 = file_to_list ["ab "; "b"; "ab"] !! 2.
Proof.
  apply (training_encoding_injective ["ab "; "b"; "ab"] None
           (Dataset [] [("unk", 1); ("$a", 2); ("ab", 3); ("b$", 4); ("$b", 5)]
                    [["$a"; "ab"; "b$"]; ["$b"; "b$"]; ["$a"; "ab"; "b$"]])
           0 2 [2; 3; 4] None None); reflexivity.
Defined.

(** ** Padding *)

Lemma nth_row_pad (r : list nat) : forall m,
  length r <= m -> (fun j => nth j r 0) <$> seq 0 m = pad m r.
Proof.
  unfold pad. induction r as [|x r IH]; intros m Hm.
  - simpl. rewrite Nat.sub_0_r. clear Hm.
    induction m as [|m IHm]; [done|].
    rewrite seq_S, fmap_app, IHm, replicate_S_end. simpl. by destruct m.
  - destruct m as [|m]; [simpl in Hm; lia|]. simpl in Hm.
    simpl. f_equal. rewrite <- fmap_S_seq, <- list_fmap_compose.
    rewrite <- (IH m) by lia. done.
Qed.

Lemma min_fold_uniform n (ls : list nat) :
  Forall (fun k => k = n) ls -> foldr Nat.min n ls = n.
Proof. induction 1 as [|k ls -> _ IH]; simpl; [done|]. rewrite IH. lia. Qed.

Lemma zip_longest_columns (data : list (list nat)) :
  Forall (fun col => length col = length data) (zip_longest data).
Proof.
  unfold zip_longest. apply Forall_fmap, Forall_forall. intros j _. simpl.
  by rewrite length_fmap.
Qed.

Lemma nth_fmap_lookup {A B} (f : A -> B) (l : list A) i x dflt :
  l !! i = Some x -> nth i (f <$> l) dflt = f x.
Proof.
  intros H. apply nth_lookup_Some. by rewrite list_lookup_fmap, H.
Qed.

(** X19.  [collator] pads every text of the batch with zeros up to the
    length of the longest one, keeping the order of the batch and of the
    ids; and when every text of the batch is empty it returns no row at
    all. *)
Theorem collator_pads batch :
  let data := fst <$> batch in
  let longest := max_list (length <$> data) in
  (collator batch).1
  = if (longest =? 0)%nat then [] else pad longest <$> data.
Proof.
  intros data longest. unfold collator. simpl. fold data.
  pose proof (zip_longest_columns data) as Hcols.
  unfold zip_longest in *. fold longest in Hcols |- *.
  destruct longest as [|m] eqn:Hm; [done|].
  change ((S m =? 0)%nat) with false. cbv iota.
  set (col := fun j => (fun r => nth j r 0) <$> data) in *.
  change (seq 0 (S m)) with (0 :: seq 1 m) in Hcols |- *.
  rewrite fmap_cons in Hcols |- *. apply Forall_cons in Hcols as [H0 Hcs].
  unfold zip_star.
  rewrite min_fold_uniform, H0.
  2:{ apply Forall_fmap. eapply Forall_impl; [exact Hcs|]. intros c Hc. simpl.
      by rewrite Hc, H0. }
  rewrite <- fmap_cons. change (0 :: seq 1 m) with (seq 0 (S m)).
  apply list_eq. intros i. rewrite !list_lookup_fmap.
  destruct (data !! i) as [r|] eqn:Hr.
  - rewrite lookup_seq_lt by (by eapply lookup_lt_Some).
    change (Some ((fun col => nth (0 + i) col 0) <$> (col <$> seq 0 (S m)))
            = Some (pad (S m) r)).
    f_equal. rewrite <- list_fmap_compose.
    rewrite <- nth_row_pad.
    + apply list_fmap_ext. intros k j _. simpl. unfold col.
      by rewrite (nth_fmap_lookup _ _ _ _ _ Hr).
    + rewrite <- Hm. unfold longest. apply max_list_elem_of_le.
      apply list_elem_of_fmap. exists r. split; [done|].
      by eapply list_elem_of_lookup_2.
  - rewrite lookup_seq_ge by (by apply lookup_ge_None). done.
Qed.

(** ** Labels *)

Lemma mapM_all_raise {A B} (f : A -> result B) (l : list A) e :
  (forall x e', f x = Raise e' -> e' = e) ->
  Exists (fun x => raises (f x)) l -> mapM f l = Raise e.
Proof.
  intros Honly. induction 1 as [x l [e' He']|x l _ IH]; simpl.
  - rewrite He'. simpl. f_equal. by eapply Honly.
  - destruct (f x) as [y|e'] eqn:Ef; simpl; [by rewrite IH|].
    f_equal. by eapply Honly.
Qed.

Lemma label_dict_getitem label e :
  dict_getitem label_dict label = Raise e <->
  e = KeyError /\ label ∉ dict_keys label_dict.
Proof.
  unfold dict_getitem. destruct (dict_lookup label label_dict) as [n|] eqn:E.
  - split; [done|]. intros [_ H]. by apply dict_lookup_keys in E.
  - split; [intros [= <-]; split; [done|by apply dict_lookup_None]|].
    by intros [-> _].
Qed.

(** X20.  [LangDataset.__init__] raises exactly when a label file is
    given and one of its stripped lines is not one of the five language
    codes (an empty line included); the exception is [KeyError].  Without a
    label file it always returns. *)
Theorem init_raises_iff text_lines label_lines given e :
  LangDataset_init text_lines label_lines given = Raise e <->
  e = KeyError
  /\ exists lines,
       label_lines = Some lines
       /\ Exists (fun l => rstrip l ∉ ["eng"; "deu"; "fra"; "ita"; "spa"]) lines.
Proof.
  unfold LangDataset_init. rewrite scan_texts_ok. split.
  - destruct label_lines as [lines|]; [|done].
    destruct (mapM (dict_getitem label_dict) (file_to_list lines)) as [ls|e'] eqn:E;
      [done|].
    simpl. intros [= ->]. apply mapM_Raise in E as (pre & x & post & Hl & _ & Hx).
    apply label_dict_getitem in Hx as [-> Hx]. split; [done|].
    exists lines. split; [done|].
    assert (x ∈ file_to_list lines) as Hin
      by (rewrite Hl; apply elem_of_app; right; by left).
    apply list_elem_of_fmap in Hin as (l & -> & Hl').
    apply Exists_exists. by exists l.
  - intros [-> (lines & -> & Hex)].
    rewrite (mapM_all_raise _ _ KeyError); [done| |].
    + intros x e' H. by apply label_dict_getitem in H as [-> _].
    + unfold file_to_list. apply Exists_fmap.
      eapply Exists_impl; [exact Hex|]. intros l Hl. simpl.
      exists KeyError. by apply label_dict_getitem.
Qed.

(** X21.  The number of classes a dataset reports is between 1 and 5:
    the number of distinct labels of the label file, and 5 when there is
    no label. *)
Theorem num_class_range text_lines label_lines given d :
  LangDataset_init text_lines label_lines given = Ok d ->
  1 <= (vocab_size d).2 <= 5
  /\ (labels d = [] -> (vocab_size d).2 = 5).
Proof.
  intros (_ & _ & Hl)%LangDataset_init_inv.
  assert (Forall (fun n => n < 5) (labels d)) as Hlt.
  { destruct label_lines as [lines|]; [|rewrite Hl; constructor].
    apply mapM_Ok_Forall2 in Hl. apply Forall_forall. intros n Hn.
    apply list_elem_of_lookup in Hn as [i Hi].
    destruct (Forall2_lookup_r _ _ _ _ _ Hl Hi) as (x & _ & Hx).
    unfold dict_getitem in Hx.
    destruct (dict_lookup x label_dict) as [n'|] eqn:E; [|done].
    injection Hx as ->. apply dict_lookup_elem in E.
    repeat (apply elem_of_cons in E as [[= _ <-]|E]; [lia|]).
    by apply elem_of_nil in E. }
  unfold vocab_size. simpl. split.
  - assert (length (remove_dups (labels d)) <= 5) as Hle.
    { change 5 with (length (seq 0 5)). apply submseteq_length, NoDup_submseteq.
      - apply NoDup_remove_dups.
      - intros n Hn. apply (proj1 (elem_of_remove_dups _ _)) in Hn. rewrite Forall_forall in Hlt.
        apply list_elem_of_In, in_seq. specialize (Hlt n Hn). lia. }
    destruct (Nat.eqb_spec (length (remove_dups (labels d))) 0); lia.
  - by intros ->.
Qed.

Lemma num_class_range_witness :
  1 <= (vocab_size (Dataset [0; 2; 0] [("unk", 1); ("$$", 2)] [["$$"]; ["$$"]; ["$$"]])).2 <= 5
  /\ ([0; 2; 0] = [] ->
      (vocab_size (Dataset [0; 2; 0] [("unk", 1); ("$$", 2)] [["$$"]; ["$$"]; ["$$"]])).2 = 5).
Proof.
  apply (num_class_range [""; ""; ""] (Some ["eng"; "fra "; "eng"]) None
           (Dataset [0; 2; 0] [("unk", 1); ("$$", 2)] [["$$"]; ["$$"]; ["$$"]])).
  reflexivity.
Defined.

(** ** Test mode *)

(** X22.  Given a vocabulary, [LangDataset] leaves it as it is, whatever
    bigrams the texts hold, and when the vocabulary has an "unk" entry the
    encoding of any text of a dataset without labels is defined: every
    bigram gets its id, and a bigram the vocabulary lacks gets the id of
    "unk". *)
Theorem test_mode_encoding text_lines v d i text unk :
  LangDataset_init text_lines None (Some v) = Ok d ->
  file_to_list text_lines !! i = Some text ->
  dict_lookup "unk" v = Some unk ->
  vocab d = v
  /\ getitem d i
     = Ok ((fun b => default unk (dict_lookup b v)) <$> bigrams_of text, None).
Proof.
  intros (Htexts & Hv & Hl)%LangDataset_init_inv Hi Hunk.
  split; [done|]. unfold getitem, list_getitem.
  rewrite Htexts, list_lookup_fmap, Hi, Hv, Hl. simpl.
  rewrite (mapM_Ok _ (fun b => default unk (dict_lookup b v))); [done|].
  intros b _. unfold encode_bigram, dict_getitem.
  destruct (dict_lookup b v); [done|]. by rewrite Hunk.
Qed.

Lemma test_mode_encoding_witness :
  vocab (Dataset [] [("unk", 1); ("$a", 2)] [["$a"; "ab"; "b$"]]) = [("unk", 1); ("$a", 2)]
  /\ getitem (Dataset [] [("unk", 1); ("$a", 2)] [["$a"; "ab"; "b$"]]) 0
     = Ok ((fun b => default 1 (dict_lookup b [("unk", 1); ("$a", 2)]))
             <$> bigrams_of "ab", None).
Proof.
  apply (test_mode_encoding ["ab"] [("unk", 1); ("$a", 2)]
           (Dataset [] [("unk", 1); ("$a", 2)] [["$a"; "ab"; "b$"]]) 0 "ab" 1);
    reflexivity.
Defined.

(** ** The vocabularies of the second dataset *)

Lemma first_occurrences_elem l x : x ∈ first_occurrences l <-> x ∈ l.
Proof.
  induction l as [|y l IH]; simpl; [done|].
  rewrite !elem_of_cons, list_elem_of_filter, IH.
  destruct (decide (x = y)); tauto.
Qed.

Lemma first_occurrences_NoDup l : NoDup (first_occurrences l).
Proof.
  induction l as [|y l IH]; simpl; [constructor|].
  apply NoDup_cons. split; [|by apply NoDup_filter].
  by intros [? _]%list_elem_of_filter.
Qed.

Lemma numbering_keys start ks : dict_keys (numbering start ks) = ks.
Proof. unfold dict_keys, numbering. apply fst_zip. by rewrite length_seq. Qed.

Lemma numbering_length start ks : length (numbering start ks) = length ks.
Proof. by rewrite <- (numbering_keys start ks) at 2; unfold dict_keys; rewrite length_fmap. Qed.

Lemma numbering_cons start k ks :
  numbering start (k :: ks) = (k, start) :: numbering (S start) ks.
Proof. done. Qed.

Lemma numbering_snoc start ks k :
  numbering start (ks ++ [k]) = numbering start ks ++ [(k, start + length ks)].
Proof.
  revert start; induction ks as [|k0 ks IH]; intros start.
  - unfold numbering. simpl. by rewrite Nat.add_0_r.
  - change ((k0 :: ks) ++ [k]) with (k0 :: (ks ++ [k])).
    rewrite !numbering_cons, IH.
    by replace (start + length (k0 :: ks)) with (S start + length ks) by (simpl; lia).
Qed.

Lemma numbering_lookup start ks i k :
  NoDup ks -> ks !! i = Some k -> dict_lookup k (numbering start ks) = Some (start + i).
Proof.
  revert start i; induction ks as [|k0 ks IH]; intros start i Hnd Hi; [done|].
  apply NoDup_cons in Hnd as [Hk0 Hnd]. rewrite numbering_cons. simpl.
  destruct i as [|i]; simpl in Hi.
  - injection Hi as ->. by rewrite String.eqb_refl, Nat.add_0_r.
  - destruct (String.eqb_spec k k0) as [->|_].
    + exfalso. apply Hk0. by eapply list_elem_of_lookup_2.
    + rewrite (IH (S start) i) by done. f_equal. lia.
Qed.

Lemma numbering_values start ks :
  dict_values (numbering start ks) = seq start (length (numbering start ks)).
Proof.
  rewrite numbering_length. unfold dict_values, numbering.
  apply snd_zip. by rewrite length_seq.
Qed.

Lemma filter_not_in_nil (l : list string) : filter (fun y => y ∉ @nil string) l = l.
Proof.
  induction l as [|x l IH]; [done|].
  rewrite filter_cons_True by apply not_elem_of_nil. by rewrite IH.
Qed.

(** The loop that numbers new keys, started from a numbering: the keys it
    adds are the new items in order of first occurrence. *)
Lemma numbering_fold start (step : pydict nat -> string -> pydict nat) :
  (forall v x, step v x = match dict_lookup x v with
                          | None => dict_setitem x (start + length v) v
                          | Some _ => v
                          end) ->
  forall l ks, NoDup ks ->
    foldl step (numbering start ks) l
    = numbering start (ks ++ filter (fun y => y ∉ ks) (first_occurrences l)).
Proof.
  intros Hstep. induction l as [|x l IH]; intros ks Hks.
  - simpl. by rewrite filter_nil, app_nil_r.
  - simpl. rewrite Hstep.
    destruct (dict_lookup x (numbering start ks)) as [id|] eqn:E.
    + apply dict_lookup_keys in E. rewrite numbering_keys in E.
      rewrite IH by done. f_equal. f_equal.
      rewrite filter_cons_False by (intros H; by apply H).
      rewrite list_filter_filter. apply list_filter_iff.
      intros y. split; [|by intros [? _]]. intros Hy. split; [done|].
      by intros ->.
    + apply dict_lookup_None in E.
      rewrite dict_setitem_fresh by done. rewrite numbering_keys in E.
      rewrite numbering_length, <- numbering_snoc.
      rewrite IH by (apply NoDup_app; split; [done|]; split;
                     [by intros y Hy ->%list_elem_of_singleton|apply NoDup_singleton]).
      f_equal. rewrite <- app_assoc. f_equal. simpl.
      rewrite filter_cons_True by done. f_equal.
      rewrite list_filter_filter. apply list_filter_iff.
      intros y. rewrite elem_of_app, list_elem_of_singleton. tauto.
Qed.

Lemma foldl_concat {A B} (f : B -> A -> B) (ls : list (list A)) acc :
  foldl (fun v l => foldl f v l) acc ls = foldl f acc (concat ls).
Proof.
  revert acc; induction ls as [|l ls IH]; intros acc; simpl; [done|].
  by rewrite foldl_app, IH.
Qed.

(** X23.  [create_text_vocab], when no word of the data is "unk" itself,
    is the dictionary that numbers the distinct words of the data 1, 2, ...
    in order of first occurrence and then "unk": the [i]-th distinct
    word, counted from 0, has the id [i + 1], which lies below the size of
    the vocabulary, and "unk" has the last id, the size itself. *)
Theorem create_text_vocab_numbers data :
  Forall (Forall (fun w => w <> "unk")) data ->
  let v := create_text_vocab data in
  let ws := first_occurrences (concat data) in
  v = numbering 1 (ws ++ ["unk"])
  /\ NoDup ws
  /\ (forall w, w ∈ ws <-> exists sent, sent ∈ data /\ w ∈ sent)
  /\ length v = S (length ws)
  /\ dict_values v = seq 1 (length v)
  /\ (forall i w, ws !! i = Some w -> dict_lookup w v = Some (S i))
  /\ dict_lookup "unk" v = Some (length v).
Proof.
  intros Hno v ws.
  assert (forall w, w ∈ ws <-> exists sent, sent ∈ data /\ w ∈ sent) as Hws.
  { intros w. unfold ws. rewrite first_occurrences_elem, list_elem_of_In, in_concat.
    split; intros (sent & Hs & Hw); exists sent;
      (split; [by apply list_elem_of_In|by apply list_elem_of_In]). }
  assert ("unk" ∉ ws) as Hunk.
  { intros (sent & Hs & Hw)%Hws. rewrite Forall_forall in Hno.
    specialize (Hno sent Hs). rewrite Forall_forall in Hno. by apply (Hno "unk"). }
  assert (NoDup (ws ++ ["unk"])) as Hnd.
  { apply NoDup_app. split; [apply first_occurrences_NoDup|].
    split; [by intros y Hy ->%list_elem_of_singleton|apply NoDup_singleton]. }
  assert (v = numbering 1 (ws ++ ["unk"])) as Hv.
  { unfold v, create_text_vocab. rewrite foldl_concat.
    change (@nil (string * nat)) with (numbering 1 []).
    rewrite (numbering_fold 1 add_word) by
      (first [ intros v' x; unfold add_word; destruct (dict_lookup x v'); [done|];
               f_equal; lia
             | constructor ]).
    simpl. rewrite filter_not_in_nil. fold ws.
    rewrite dict_setitem_fresh by by rewrite numbering_keys.
    rewrite numbering_length, numbering_snoc.
    by replace (length ws + 1) with (1 + length ws) by lia. }
  assert (length v = S (length ws)) as Hlen.
  { rewrite Hv, numbering_length, length_app. simpl. lia. }
  split; [done|]. split; [apply first_occurrences_NoDup|]. split; [done|].
  split; [done|]. split; [rewrite Hv; apply numbering_values|]. split.
  - intros i w Hi. rewrite Hv.
    rewrite (numbering_lookup 1 _ i w Hnd); [done|].
    by apply lookup_app_l_Some.
  - rewrite Hlen, Hv.
    rewrite (numbering_lookup 1 _ (length ws) "unk" Hnd); [done|].
    by rewrite lookup_app_r, Nat.sub_diag.
Qed.

Lemma create_text_vocab_numbers_witness :
  let v := create_text_vocab [["ab"; "b "]; ["ab"; " c"]] in
  let ws := first_occurrences (concat [["ab"; "b "]; ["ab"; " c"]]) in
  v = numbering 1 (ws ++ ["unk"])
  /\ NoDup ws
  /\ (forall w, w ∈ ws <-> exists sent, sent ∈ [["ab"; "b "]; ["ab"; " c"]] /\ w ∈ sent)
  /\ length v = S (length ws)
  /\ dict_values v = seq 1 (length v)
  /\ (forall i w, ws !! i = Some w -> dict_lookup w v = Some (S i))
  /\ dict_lookup "unk" v = Some (length v).
Proof.
  apply (create_text_vocab_numbers [["ab"; "b "]; ["ab"; " c"]]).
  repeat constructor; done.
Defined.

(** X24.  [create_label_vocab] is the dictionary that numbers the
    distinct labels of the data 0, 1, ... in order of first occurrence: its
    keys are the labels of the data and no other, the [i]-th distinct label
    has the class id [i], and every id lies below the number of classes. *)
Theorem create_label_vocab_numbers data :
  let v := create_label_vocab data in
  let ls := first_occurrences data in
  v = numbering 0 ls
  /\ NoDup ls
  /\ (forall l, l ∈ ls <-> l ∈ data)
  /\ dict_keys v = ls
  /\ dict_values v = seq 0 (length v)
  /\ (forall i l, ls !! i = Some l -> dict_lookup l v = Some i)
  /\ (forall l, l ∈ data -> exists id, dict_lookup l v = Some id /\ id < length v).
Proof.
  intros v ls.
  assert (v = numbering 0 ls) as Hv.
  { unfold v, create_label_vocab.
    change (@nil (string * nat)) with (numbering 0 []).
    rewrite (numbering_fold 0 add_label) by (first [done|constructor]).
    simpl. by rewrite filter_not_in_nil. }
  pose proof (first_occurrences_NoDup data) as Hnd. fold ls in Hnd.
  split; [done|]. split; [done|].
  split; [intros l; apply first_occurrences_elem|].
  split; [rewrite Hv; apply numbering_keys|].
  split; [rewrite Hv; apply numbering_values|]. split.
  - intros i l Hi. rewrite Hv. by rewrite (numbering_lookup 0 _ i l Hnd).
  - intros l Hl. apply first_occurrences_elem in Hl. fold ls in Hl.
    apply list_elem_of_lookup in Hl as [i Hi]. exists i.
    split; [rewrite Hv; by rewrite (numbering_lookup 0 _ i l Hnd)|].
    rewrite Hv, numbering_length. by eapply lookup_lt_Some.
Qed.
